(** * UK Wealth Tax Impact Simulator: the wealth evolution engine

    A shallow embedding of [streamlit_app.py]: the distribution
    initializer, the year-by-year recurrence of
    [simulate_wealth_tax_impact], and the two derived views the page
    computes from its output (the wealth-share table and the annual tax
    revenue), and the revenue calculator of [streamlit_app_one.py].

    Python evaluates the recurrence on binary64 floats.  The engine below
    is written once, against an interface of the four arithmetic
    operations the source uses, in the order the source applies them, and
    is run on binary64 (primitive floats).

    - What depends on the shape of the loop only (the shape of the
      trajectory, the independence from the threshold, the rule that
      produces a row from the row before) holds for every instance of the
      interface, binary64 among them.
    - What depends on the arithmetic is stated on binary64, with its
      rounding, its infinities and its [nan]: the identities of the
      specification that hold over the rationals do not hold there, and
      are replaced by what the floats satisfy.
    - The share table, whose behaviour hinges on missing values and on
      division by zero, is studied on binary64, over a model of the frame
      operations it uses. *)

From Stdlib Require Import ZArith QArith Qpower Qabs Lia Lqa Floats.
From stdpp Require Import base option list gmap strings.

Local Open Scope Z_scope.

(** ** Numbers *)

(** The arithmetic the engine needs.  [of_int] promotes a Python [int];
    [of_decimal m k] is the decimal literal [m * 10^(-k)]. *)
Class Number (num : Type) := {
  of_int : Z → num;
  of_decimal : Z → nat → num;
  add : num → num → num;
  sub : num → num → num;
  mul : num → num → num;
  div : num → num → num
}.

Declare Scope num_scope.
Delimit Scope num_scope with num.
Infix "+" := add : num_scope.
Infix "-" := sub : num_scope.
Infix "*" := mul : num_scope.
Infix "/" := div : num_scope.

(** ** Data model *)

Definition ULTRA : string := "Ultra Wealthy (>£10M)".
Definition MIDDLE : string := "Middle Wealth (>£100K)".
Definition LOWER : string := "Lower Wealth (<£100K)".

Section Engine.
Context {num : Type} `{Number num}.
Local Open Scope num_scope.

(** The inner dictionary of a wealth group. *)
Record WealthGroup := {
  population : num;
  total_wealth : num
}.

(** One row of the engine's output: the dictionary [current_state]. *)
Record YearSnapshot := {
  year : Z;
  ultra_wealthy : num;
  middle_wealth : num;
  lower_wealth : num
}.

(** ** Distribution initializer *)

Definition initialize_wealth_groups : gmap string WealthGroup :=
  let group_1_population := of_decimal 22 3 in
  let group_2_population := of_int 30 in
  let group_3_population := of_int 36 in
  let group_1_wealth := of_int 1200 in
  let group_2_wealth := of_int 8000 in
  let group_3_wealth := of_int 800 in
  <[ULTRA := {| population := group_1_population; total_wealth := group_1_wealth |}]>
  (<[MIDDLE := {| population := group_2_population; total_wealth := group_2_wealth |}]>
  (<[LOWER := {| population := group_3_population; total_wealth := group_3_wealth |}]> ∅)).

(** ** The recurrence *)

(** [range lo hi] is Python's [range(lo, hi)]. *)
Definition range (lo hi : Z) : list Z :=
  (λ i : nat, lo + Z.of_nat i)%Z <$> seq 0 (Z.to_nat (hi - lo)).

(** The local variables of one pass through the loop body. *)
Record YearLocals := {
  ultra_wealthy_growth : num;
  middle_wealth_growth : num;
  lower_wealth_growth : num;
  ultra_wealthy_new : num;
  middle_wealth_new : num;
  lower_wealth_new : num;
  tax_collected : num;
  ultra_wealthy_after_tax : num;
  tax_to_redistribute : num;
  middle_wealth_final : num;
  lower_wealth_final : num
}.

(** The loop body up to the state update, on the previous state. *)
Definition year_body (tax_rate growth_rate high_wealth_premium redistribution_eff : num)
    (current_state : YearSnapshot) : YearLocals :=
  let ultra_wealthy_growth :=
    ultra_wealthy current_state * ((growth_rate + high_wealth_premium) / of_int 100) in
  let middle_wealth_growth := middle_wealth current_state * (growth_rate / of_int 100) in
  let lower_wealth_growth := lower_wealth current_state * (growth_rate / of_int 100) in
  let ultra_wealthy_new := ultra_wealthy current_state + ultra_wealthy_growth in
  let middle_wealth_new := middle_wealth current_state + middle_wealth_growth in
  let lower_wealth_new := lower_wealth current_state + lower_wealth_growth in
  let tax_collected := ultra_wealthy_new * (tax_rate / of_int 100) in
  let ultra_wealthy_after_tax := ultra_wealthy_new - tax_collected in
  let tax_to_redistribute := tax_collected * redistribution_eff in
  let middle_wealth_share := of_decimal 3 1 in
  let lower_wealth_share := of_decimal 7 1 in
  let middle_wealth_final := middle_wealth_new + (tax_to_redistribute * middle_wealth_share) in
  let lower_wealth_final := lower_wealth_new + (tax_to_redistribute * lower_wealth_share) in
  {| ultra_wealthy_growth := ultra_wealthy_growth;
     middle_wealth_growth := middle_wealth_growth;
     lower_wealth_growth := lower_wealth_growth;
     ultra_wealthy_new := ultra_wealthy_new;
     middle_wealth_new := middle_wealth_new;
     lower_wealth_new := lower_wealth_new;
     tax_collected := tax_collected;
     ultra_wealthy_after_tax := ultra_wealthy_after_tax;
     tax_to_redistribute := tax_to_redistribute;
     middle_wealth_final := middle_wealth_final;
     lower_wealth_final := lower_wealth_final |}.

(** The state update that closes the loop body. *)
Definition update_state (yr : Z) (l : YearLocals) : YearSnapshot :=
  {| year := yr;
     ultra_wealthy := ultra_wealthy_after_tax l;
     middle_wealth := middle_wealth_final l;
     lower_wealth := lower_wealth_final l |}.

(** One iteration: the loop carries [current_state] and [results]. *)
Definition year_step (tax_rate growth_rate high_wealth_premium redistribution_eff : num)
    (st : YearSnapshot * list YearSnapshot) (yr : Z) : YearSnapshot * list YearSnapshot :=
  let current_state :=
    update_state yr
      (year_body tax_rate growth_rate high_wealth_premium redistribution_eff (fst st)) in
  (current_state, snd st ++ [current_state]).

(** The initial state read out of the dictionary of groups; a missing
    key is Python's [KeyError], here [None]. *)
Definition initial_state (wealth_groups : gmap string WealthGroup) : option YearSnapshot :=
  u ← wealth_groups !! ULTRA;
  m ← wealth_groups !! MIDDLE;
  l ← wealth_groups !! LOWER;
  Some {| year := 0;
          ultra_wealthy := total_wealth u;
          middle_wealth := total_wealth m;
          lower_wealth := total_wealth l |}.

(** The engine.  The rows of the returned frame are [results]. *)
Definition simulate_wealth_tax_impact (wealth_groups : gmap string WealthGroup) (years : Z)
    (tax_rate threshold growth_rate high_wealth_premium redistribution_eff : num)
    : option (list YearSnapshot) :=
  current_state ← initial_state wealth_groups;
  Some (snd (fold_left
               (year_step tax_rate growth_rate high_wealth_premium redistribution_eff)
               (range 1 (years + 1))
               (current_state, [current_state]))).

(** The rows the loop appends when it runs over the years [ys] from the
    state [cur]: the loop read as a recursion on the years still to run. *)
Fixpoint appended (tax_rate growth_rate high_wealth_premium redistribution_eff : num)
    (cur : YearSnapshot) (ys : list Z) : list YearSnapshot :=
  match ys with
  | [] => []
  | y :: ys' =>
      let s := update_state y
                 (year_body tax_rate growth_rate high_wealth_premium redistribution_eff cur) in
      s :: appended tax_rate growth_rate high_wealth_premium redistribution_eff s ys'
  end.

End Engine.

Arguments WealthGroup : clear implicits.
Arguments YearSnapshot : clear implicits.
Arguments YearLocals : clear implicits.

(** ** Annual tax revenue, as the page recomputes it *)

Section Revenue.
Context {num : Type} `{Number num}.
Local Open Scope num_scope.

Record TaxRow := {
  tr_year : Z;
  tr_tax_revenue : num
}.

(** The body of the loop over [range(1, len(simulation_results))];
    [iloc] out of range is Python's [IndexError], here [None]. *)
Definition tax_revenue_row (simulation_results : list (YearSnapshot num))
    (avg_growth_rate high_wealth_growth_premium : num) (i : Z) : option TaxRow :=
  cur ← simulation_results !! Z.to_nat i;
  prev ← simulation_results !! Z.to_nat (i - 1);
  let ultra_wealthy_pre_tax :=
    ultra_wealthy prev
    * (of_int 1 + (avg_growth_rate + high_wealth_growth_premium) / of_int 100) in
  let ultra_wealthy_post_tax := ultra_wealthy cur in
  let tax_collected := ultra_wealthy_pre_tax - ultra_wealthy_post_tax in
  Some {| tr_year := year cur; tr_tax_revenue := tax_collected |}.

Definition tax_revenue (simulation_results : list (YearSnapshot num))
    (avg_growth_rate high_wealth_growth_premium : num) : option (list TaxRow) :=
  mapM (tax_revenue_row simulation_results avg_growth_rate high_wealth_growth_premium)
       (range 1 (Z.of_nat (length simulation_results))).

End Revenue.

Arguments TaxRow : clear implicits.

(** ** The update rule in the words of the specification *)

Section Specified.
Context {num : Type} `{Number num}.
Local Open Scope num_scope.

(** The values the specification names in a year. *)
Record SpecifiedYear := {
  topGrown : num;
  middleGrown : num;
  lowerGrown : num;
  taxCollected : num;
  topNext : num;
  middleNext : num;
  lowerNext : num
}.

(** The rule as the specification writes it: growth as a multiplication
    by [1 + rate / 100]. *)
Definition specified_year
    (taxRate baseGrowthRate highWealthGrowthPremium redistributionEfficiency : num)
    (prev : YearSnapshot num) : SpecifiedYear :=
  let topGrown :=
    ultra_wealthy prev
    * (of_int 1 + (baseGrowthRate + highWealthGrowthPremium) / of_int 100) in
  let middleGrown := middle_wealth prev * (of_int 1 + baseGrowthRate / of_int 100) in
  let lowerGrown := lower_wealth prev * (of_int 1 + baseGrowthRate / of_int 100) in
  let taxCollected := topGrown * (taxRate / of_int 100) in
  {| topGrown := topGrown;
     middleGrown := middleGrown;
     lowerGrown := lowerGrown;
     taxCollected := taxCollected;
     topNext := topGrown - taxCollected;
     middleNext := middleGrown + taxCollected * redistributionEfficiency * of_decimal 30 2;
     lowerNext := lowerGrown + taxCollected * redistributionEfficiency * of_decimal 70 2 |}.

(** The two sides of the conservation identity of the specification,
    evaluated in the arithmetic of the code. *)
Definition specified_grown_total (l : YearLocals num) : num :=
  ultra_wealthy_new l + middle_wealth_new l + lower_wealth_new l.

Definition specified_emitted_total (l : YearLocals num) : num :=
  ultra_wealthy_after_tax l + middle_wealth_final l + lower_wealth_final l.

Definition specified_leakage (redistributionEfficiency : num) (l : YearLocals num) : num :=
  tax_collected l * (of_int 1 - redistributionEfficiency).

End Specified.

Arguments SpecifiedYear : clear implicits.

(** ** Binary64 and the wealth-share table *)

(** Python's float arithmetic.  [of_int] rounds to nearest, as the
    conversion of an [int] does; [of_decimal m k] is the correctly rounded
    quotient, which is the value of the literal as long as [m] and [10^k]
    are themselves floats (here always). *)
Definition float_of_Z (z : Z) : float :=
  SF2Prim (binary_normalize prec emax z 0 false).

#[export] Instance float_Number : Number float := {
  of_int := float_of_Z;
  of_decimal m k := PrimFloat.div (float_of_Z m) (float_of_Z (10 ^ Z.of_nat k));
  add := PrimFloat.add;
  sub := PrimFloat.sub;
  mul := PrimFloat.mul;
  div := PrimFloat.div
}.

(** Two floats that are the same number: identical, or zeros that differ
    in sign at most. *)
Definition same_number (a b : float) : Prop :=
  a = b ∨ (PrimFloat.is_zero a = true ∧ PrimFloat.is_zero b = true).

(** ** The rational a float stands for *)

(** Claims about magnitudes are stated on the exact value of the floats
    the code computes: [value x] is the rational that a finite [x] holds,
    and [0] for an infinity or [nan] (a statement on values then says of
    which floats it speaks). *)
Definition pow2 (e : Z) : Q := (2 ^ e)%Q.

Definition sign_of (s : bool) : Q := if s then (-1)%Q else 1%Q.

Definition SF2Q (x : spec_float) : Q :=
  match x with
  | S754_finite s m e => (sign_of s * (inject_Z (Z.pos m) * pow2 e))%Q
  | _ => 0%Q
  end.

Definition value (x : float) : Q := SF2Q (Prim2SF x).

(** The unit roundoff of binary64 and half its smallest positive number. *)
Definition unit_roundoff : Q := pow2 (-53).
Definition half_least : Q := pow2 (-1075).

(** A float that is a number: a zero or a finite float. *)
Definition SFfinite (x : spec_float) : Prop :=
  match x with
  | S754_zero _ | S754_finite _ _ _ => True
  | _ => False
  end.

(** [m1] is [m / K] rounded to a nearest integer. *)
Definition rounds_to (K m m1 : Z) : Prop :=
  m / K ≤ m1 ≤ m / K + 1 ∧ (m mod K = 0 → m1 = m / K) ∧ 2 * Z.abs (m1 * K - m) ≤ K.

(** What a rounded result stands for: sign [s], magnitude [M * 2^E]; an
    infinity is an overflow. *)
Definition represents (r : spec_float) (s : bool) (M E : Z) : Prop :=
  match r with
  | S754_zero s' => s' = s ∧ M = 0
  | S754_finite s' m e => s' = s ∧ E ≤ e ∧ Z.pos m * 2 ^ (e - E) = M
  | S754_infinity s' => s' = s
  | S754_nan => False
  end.

(** The two bits a location stands for. *)
Definition loc_bits (l : location) : Z :=
  match l with
  | loc_Exact => 0
  | loc_Inexact Lt => 1
  | loc_Inexact Eq => 2
  | loc_Inexact Gt => 3
  end.

(** ** One pass of the loop body, in exact terms *)

(** The totals of the conservation identity, on the exact values of the
    floats a pass computes: the three grown amounts, the three emitted
    amounts, the part of the tax that redistribution loses, and the
    magnitude against which the rounding of a pass is measured. *)
Definition grown_total (l : YearLocals float) : Q :=
  (value (ultra_wealthy_new l) + value (middle_wealth_new l)
   + value (lower_wealth_new l))%Q.

Definition emitted_total (l : YearLocals float) : Q :=
  (value (ultra_wealthy_after_tax l) + value (middle_wealth_final l)
   + value (lower_wealth_final l))%Q.

Definition leakage (redistribution_eff : float) (l : YearLocals float) : Q :=
  (value (tax_collected l) * (1 - value redistribution_eff))%Q.

Definition conservation_scale (redistribution_eff : float) (l : YearLocals float) : Q :=
  (Qabs (value (ultra_wealthy_new l)) + Qabs (value (middle_wealth_new l))
   + Qabs (value (lower_wealth_new l)) + Qabs (value (tax_collected l))
   + Qabs (value (tax_collected l) * value redistribution_eff))%Q.

(** A wealth value that, if it is a number, is not negative. *)
Definition nonnegative_if_finite (x : float) : Prop :=
  PrimFloat.is_finite x = true → (0 <= value x)%Q.

Definition no_negative_wealth (s : YearSnapshot float) : Prop :=
  nonnegative_if_finite (ultra_wealthy s)
  ∧ nonnegative_if_finite (middle_wealth s)
  ∧ nonnegative_if_finite (lower_wealth s).

Module Frame.
Local Open Scope num_scope.

(** A cell of a frame: the [year] column holds integers, the wealth and
    share columns hold floats.  A missing value is the float [nan]. *)
Inductive scalar :=
  | Int (z : Z)
  | Float (f : float).

(** The value of a cell in float arithmetic. *)
Definition to_float (x : scalar) : float :=
  match x with
  | Int z => float_of_Z z
  | Float f => f
  end.

(** [x == y] on cells. *)
Definition scalar_eqb (x y : scalar) : bool :=
  match x, y with
  | Int a, Int b => Z.eqb a b
  | _, _ => PrimFloat.eqb (to_float x) (to_float y)
  end.

(** A frame: its columns in order, each with one cell per row. *)
Abbreviation DataFrame := (list (string * list scalar)).

(** [pd.DataFrame(results)]: the keys of the dictionaries become the
    columns, in key order. *)
Definition of_results (results : list (YearSnapshot float)) : DataFrame :=
  match results with
  | [] => []
  | _ => [ ("year", (λ r, Int (year r)) <$> results);
           (ULTRA, (λ r, Float (ultra_wealthy r)) <$> results);
           (MIDDLE, (λ r, Float (middle_wealth r)) <$> results);
           (LOWER, (λ r, Float (lower_wealth r)) <$> results) ]
  end.

Definition columns (df : DataFrame) : list string := fst <$> df.

(** [df[name]]; [None] is [KeyError]. *)
Fixpoint column (df : DataFrame) (name : string) : option (list scalar) :=
  match df with
  | [] => None
  | (c, vs) :: rest => if decide (c = name) then Some vs else column rest name
  end.

(** [df[name] == v], a boolean mask over the rows. *)
Definition eq_mask (df : DataFrame) (name : string) (v : scalar) : option (list bool) :=
  vs ← column df name;
  Some (map (λ x, scalar_eqb x v) vs).

(** The cells of a column under a mask. *)
Fixpoint select (mask : list bool) (vs : list scalar) : list scalar :=
  match mask, vs with
  | b :: mask', v :: vs' => if b then v :: select mask' vs' else select mask' vs'
  | _, _ => []
  end.

(** [df.loc[mask, name].values[0]]; [None] is [KeyError] or [IndexError]. *)
Definition loc_value0 (df : DataFrame) (mask : list bool) (name : string) : option scalar :=
  vs ← column df name;
  head (select mask vs).

(** A column with the cells under the mask overwritten. *)
Fixpoint assign (mask : list bool) (v : scalar) (vs : list scalar) : list scalar :=
  match mask, vs with
  | b :: mask', x :: vs' => (if b then v else x) :: assign mask' v vs'
  | _, _ => vs
  end.

Fixpoint set_column (df : DataFrame) (name : string) (f : list scalar → list scalar)
    : DataFrame :=
  match df with
  | [] => []
  | (c, vs) :: rest =>
      if decide (c = name) then (c, f vs) :: rest else (c, vs) :: set_column rest name f
  end.

(** [df.loc[mask, name] = v]: the rows under the mask are overwritten;
    a column that does not exist yet is appended, [nan] outside the mask. *)
Definition loc_assign (df : DataFrame) (mask : list bool) (name : string) (v : scalar)
    : DataFrame :=
  match column df name with
  | Some _ => set_column df name (assign mask v)
  | None => df ++ [(name, (λ b : bool, if b then v else Float nan) <$> mask)]
  end.

(** Python's [sum] of a list of cells: start from the int [0]. *)
Definition sum (xs : list scalar) : float :=
  fold_left (λ acc x, acc + to_float x) xs (of_int 0).

(** A loop whose body may raise. *)
Definition for_each {A S} (xs : list A) (body : S → A → option S) (s : S) : option S :=
  fold_left (λ acc x, acc ≫= λ s', body s' x) xs (Some s).

(** The body of the inner loop of the share table. *)
Definition share_of_column (yr : scalar) (total_wealth : float) (wealth_shares : DataFrame)
    (column : string) : option DataFrame :=
  if decide (column ≠ "year") then
    mask ← eq_mask wealth_shares "year" yr;
    v ← loc_value0 wealth_shares mask column;
    Some (loc_assign wealth_shares mask (column +:+ " Share")
            (Float (to_float v / total_wealth)))
  else Some wealth_shares.

(** The body of the outer loop: the total over the columns the frame has
    when the pass starts, then one share per such column. *)
Definition shares_of_year (wealth_shares : DataFrame) (yr : scalar) : option DataFrame :=
  mask ← eq_mask wealth_shares "year" yr;
  terms ← mapM (loc_value0 wealth_shares mask)
               (filter (λ col, col ≠ "year") (columns wealth_shares));
  let total_wealth := sum terms in
  for_each (columns wealth_shares) (share_of_column yr total_wealth) wealth_shares.

(** The share table: [wealth_shares] after the loops. *)
Definition wealth_shares (simulation_results : DataFrame) : option DataFrame :=
  years ← column simulation_results "year";
  for_each years shares_of_year simulation_results.

(** The cell of a column at a row position. *)
Definition cell (df : DataFrame) (name : string) (row : nat) : option scalar :=
  vs ← column df name; vs !! row.

(** [row[name] / sum([row[col] for col in row.index if col != "year"])] for
    [row = df.iloc[i]], as the cumulative-impact metrics compute a share. *)
Definition row_share (df : DataFrame) (i : nat) (name : string) : option float :=
  v ← cell df name i;
  terms ← mapM (λ col, cell df col i) (filter (λ col, col ≠ "year") (columns df));
  Some (to_float v / sum terms).

(** A frame of a run whose [year] column is [Y]: every column has one
    cell per row. *)
Definition well_formed (Y : list scalar) (df : DataFrame) : Prop :=
  column df "year" = Some Y ∧ ∀ c vs, column df c = Some vs → length vs = length Y.

(** A later frame of the same run: no column lost, row 0 untouched. *)
Definition keeps_row_0 (df df' : DataFrame) : Prop :=
  (∀ c, is_Some (column df c) → is_Some (column df' c))
  ∧ (∀ c x, cell df c 0 = Some x → cell df' c 0 = Some x).

(** What the unguarded division returns on a zero total. *)
Definition share_at_zero_total (w share : float) : Prop :=
  if PrimFloat.is_zero w || PrimFloat.is_nan w
  then PrimFloat.is_nan share = true
  else PrimFloat.is_infinity share = true.

End Frame.

(** ** Concrete runs *)

(** The values the sliders hold by default. *)
Module Defaults.
Local Open Scope num_scope.
Definition tax_rate : float := of_decimal 20 1.
Definition wealth_threshold : float := of_decimal 100 1 * of_int 1000000.
Definition years_to_simulate : Z := 20.
Definition avg_growth_rate : float := of_decimal 50 1.
Definition high_wealth_growth_premium : float := of_decimal 10 1.
Definition redistribution_efficiency : float := of_decimal 800 1 / of_int 100.
End Defaults.

(** The frame the page computes on its default settings. *)
Definition simulation_results : option (list (YearSnapshot float)) :=
  simulate_wealth_tax_impact initialize_wealth_groups Defaults.years_to_simulate
    Defaults.tax_rate Defaults.wealth_threshold Defaults.avg_growth_rate
    Defaults.high_wealth_growth_premium Defaults.redistribution_efficiency.

(** The three group columns. *)
Definition groups : list string := [ULTRA; MIDDLE; LOWER].

(** The rows of that frame, and the share table computed from them,
    evaluated. *)
Definition default_rows : list (YearSnapshot float) := Eval vm_compute in
  default [] simulation_results.

Definition default_shares : Frame.DataFrame := Eval vm_compute in
  default [] (Frame.wealth_shares (Frame.of_results default_rows)).

(** What is wrong with the share of a group in a row: the groups total a
    positive finite amount, the share computed from the row alone lies
    strictly between 0 and 1, and the share table holds [nan]. *)
Definition share_is_lost (results shares : Frame.DataFrame) (i : nat) (name : string)
    : bool :=
  match Frame.cell results ULTRA i, Frame.cell results MIDDLE i, Frame.cell results LOWER i,
        Frame.row_share results i name, Frame.cell shares (name +:+ " Share") i with
  | Some (Frame.Float u), Some (Frame.Float m), Some (Frame.Float l),
    Some intended, Some (Frame.Float computed) =>
      PrimFloat.ltb 0 (u + m + l)%float && PrimFloat.is_finite (u + m + l)%float
      && PrimFloat.ltb 0 intended && PrimFloat.ltb intended 1
      && PrimFloat.is_nan computed
  | _, _, _, _, _ => false
  end.

(** Three groups that hold nothing. *)
Definition zero_groups : gmap string (WealthGroup float) :=
  let nothing := {| population := of_int 1; total_wealth := of_int 0 |} in
  <[ULTRA := nothing]> (<[MIDDLE := nothing]> (<[LOWER := nothing]> ∅)).

(** The default distribution without a tax, over four years, evaluated. *)
Definition zero_tax_rows : list (YearSnapshot float) := Eval vm_compute in
  default [] (simulate_wealth_tax_impact initialize_wealth_groups 4 (of_int 0)
                Defaults.wealth_threshold Defaults.avg_growth_rate
                Defaults.high_wealth_growth_premium Defaults.redistribution_efficiency).

(** A top wealth of [10^308], near the largest float. *)
Definition overflowing_groups : gmap string (WealthGroup float) :=
  <[ULTRA := {| population := of_int 1; total_wealth := of_int (10 ^ 308) |}]>
  (<[MIDDLE := {| population := of_int 1; total_wealth := of_int 8000 |}]>
  (<[LOWER := {| population := of_int 1; total_wealth := of_int 800 |}]> ∅)).

(** Missing shares. *)

(** A cell that holds the missing value. *)
Definition is_nan_cell (x : option Frame.scalar) : Prop :=
  ∃ f, x = Some (Frame.Float f) ∧ PrimFloat.is_nan f = true.

(** Every share of a group in the rows [1 .. n - 1] is missing. *)
Definition shares_lost (n : nat) (df : Frame.DataFrame) : Prop :=
  ∀ name i, name ∈ groups → (1 ≤ i < n)%nat →
    is_nan_cell (Frame.cell df (name +:+ " Share") i).

(** ** The revenue calculator ([streamlit_app_one.py]) *)

Module Calculator.
Local Open Scope Q_scope.

(** [revenue_billions = 11.9 * tax_rate]; the slider value is an [int]. *)
Definition revenue_billions (tax_rate : Z) : Q := 11.9 * inject_Z tax_rate.

(** The two columns of [expenditure_data]. *)
Definition categories : list string :=
  ["Healthcare (NHS)"; "Education"; "Defense"; "Welfare"; "Transport";
   "Public Order & Safety"; "Housing & Environment"; "Debt Interest"].

Definition amounts : list Z := [176; 103; 55; 231; 44; 38; 31; 45]%Z.

(** [pd.DataFrame(expenditure_data)]: the rows of the two columns; columns
    of different lengths are a [ValueError], here [None]. *)
Definition DataFrame (categories : list string) (amounts : list Z)
    : option (list (string * Z)) :=
  if decide (length categories = length amounts) then Some (zip categories amounts)
  else None.

(** The departments the revenue covers:
    [[dept for i, dept in enumerate(df["Category"]) if df["Amount (£bn)"][i] <= revenue_billions]]. *)
Definition covered (expenditure_df : list (string * Z)) (revenue_billions : Q) : list string :=
  fst <$> List.filter (λ row, Qle_bool (inject_Z (snd row)) revenue_billions) expenditure_df.

End Calculator.

(** * Properties *)

(** ** The loop as a list of states *)

Section Trajectory.
Context {num : Type} `{Number num}.
Variables tax_rate growth_rate high_wealth_premium redistribution_eff : num.

Local Abbreviation body := (year_body tax_rate growth_rate high_wealth_premium redistribution_eff).
Local Abbreviation step := (year_step tax_rate growth_rate high_wealth_premium redistribution_eff).
Local Abbreviation appended := (appended tax_rate growth_rate high_wealth_premium redistribution_eff).

Lemma fold_year_step (ys : list Z) (cur : YearSnapshot num) (res : list (YearSnapshot num)) :
  snd (fold_left step ys (cur, res)) = res ++ appended cur ys.
Proof.
  revert cur res. induction ys as [|y ys IH]; intros cur res; simpl.
  - by rewrite app_nil_r.
  - unfold year_step at 2. simpl. rewrite IH. by rewrite <- app_assoc.
Qed.

Lemma length_appended (ys : list Z) (cur : YearSnapshot num) :
  length (appended cur ys) = length ys.
Proof. revert cur. induction ys as [|y ys IH]; intros cur; simpl; [done|]. by rewrite IH. Qed.

Lemma year_appended (ys : list Z) (cur : YearSnapshot num) :
  year <$> appended cur ys = ys.
Proof. revert cur. induction ys as [|y ys IH]; intros cur; simpl; [done|]. by rewrite IH. Qed.

(** Every appended state is the loop body applied to the state before it. *)
Lemma appended_lookup (ys : list Z) (cur : YearSnapshot num) (i : nat) (y : Z) :
  ys !! i = Some y →
  ∃ prev, (cur :: appended cur ys) !! i = Some prev
        ∧ (cur :: appended cur ys) !! S i = Some (update_state y (body prev)).
Proof.
  revert cur i. induction ys as [|y0 ys IH]; intros cur i Hy; [done|].
  destruct i as [|i]; simpl in *.
  - injection Hy as ->. by exists cur.
  - destruct (IH (update_state y0 (body cur)) i Hy) as (prev & Hp & Hn).
    exists prev. split; assumption.
Qed.

(** A property of states that the loop body preserves holds of every row. *)
Lemma appended_invariant (P : YearSnapshot num → Prop) :
  (∀ y s, P s → P (update_state y (body s))) →
  ∀ ys cur, P cur → Forall P (appended cur ys).
Proof.
  intros Hstep ys. induction ys as [|y ys IH]; intros cur Hcur; simpl.
  - constructor.
  - constructor; [by apply Hstep|]. apply IH. by apply Hstep.
Qed.

End Trajectory.

Section Range.

Lemma length_range (lo hi : Z) : length (range lo hi) = Z.to_nat (hi - lo).
Proof. unfold range. by rewrite length_fmap, length_seq. Qed.

Lemma lookup_range (lo hi : Z) (i : nat) :
  (i < Z.to_nat (hi - lo))%nat → range lo hi !! i = Some (lo + Z.of_nat i).
Proof.
  intros Hi. unfold range. rewrite list_lookup_fmap.
  rewrite lookup_seq_lt by done. done.
Qed.

Lemma range_cons (lo hi : Z) : lo < hi → range lo hi = lo :: range (lo + 1) hi.
Proof.
  intros Hlt. unfold range.
  replace (Z.to_nat (hi - lo)) with (S (Z.to_nat (hi - (lo + 1)))) by lia.
  simpl. f_equal; [lia|].
  rewrite <- fmap_S_seq, <- list_fmap_compose. apply list_fmap_ext.
  intros _ i _. simpl. lia.
Qed.

Lemma range_empty (lo hi : Z) : hi ≤ lo → range lo hi = [].
Proof. intros Hle. unfold range. by replace (Z.to_nat (hi - lo)) with 0%nat by lia. Qed.

End Range.

Section Engine_facts.
Context {num : Type} `{Number num}.

(** What the engine returns, for any arithmetic. *)
Lemma simulate_unfold (wealth_groups : gmap string (WealthGroup num)) (years : Z)
    (tax_rate threshold growth_rate high_wealth_premium redistribution_eff : num)
    (s0 : YearSnapshot num) :
  initial_state wealth_groups = Some s0 →
  simulate_wealth_tax_impact wealth_groups years tax_rate threshold growth_rate
    high_wealth_premium redistribution_eff
  = Some (s0 :: appended tax_rate growth_rate high_wealth_premium redistribution_eff
                  s0 (range 1 (years + 1))).
Proof.
  intros Hs0. unfold simulate_wealth_tax_impact. rewrite Hs0. simpl.
  by rewrite fold_year_step.
Qed.

(** The engine raises only on a missing group. *)
Lemma simulate_Some_initial (wealth_groups : gmap string (WealthGroup num)) (years : Z)
    (tax_rate threshold growth_rate high_wealth_premium redistribution_eff : num)
    (traj : list (YearSnapshot num)) :
  simulate_wealth_tax_impact wealth_groups years tax_rate threshold growth_rate
    high_wealth_premium redistribution_eff = Some traj →
  ∃ s0, initial_state wealth_groups = Some s0.
Proof.
  unfold simulate_wealth_tax_impact. destruct (initial_state wealth_groups) as [s0|]; [|done].
  intros _. by exists s0.
Qed.

(** Row [t] is the loop body applied to row [t - 1], stamped with [t]. *)
Lemma simulate_step (wealth_groups : gmap string (WealthGroup num)) (years : Z)
    (tax_rate threshold growth_rate high_wealth_premium redistribution_eff : num)
    (traj : list (YearSnapshot num)) (t : Z) :
  simulate_wealth_tax_impact wealth_groups years tax_rate threshold growth_rate
    high_wealth_premium redistribution_eff = Some traj →
  1 ≤ t ≤ years →
  ∃ prev, traj !! Z.to_nat (t - 1) = Some prev
        ∧ traj !! Z.to_nat t
          = Some (update_state t
                    (year_body tax_rate growth_rate high_wealth_premium redistribution_eff prev)).
Proof.
  intros Hsim Ht.
  destruct (simulate_Some_initial _ _ _ _ _ _ _ _ Hsim) as [s0 Hs0].
  rewrite (simulate_unfold _ _ _ _ _ _ _ _ Hs0) in Hsim. injection Hsim as <-.
  assert (Hy : range 1 (years + 1) !! Z.to_nat (t - 1) = Some t).
  { rewrite lookup_range by lia. f_equal. lia. }
  destruct (appended_lookup tax_rate growth_rate high_wealth_premium redistribution_eff
              _ s0 _ _ Hy) as (prev & Hp & Hn).
  exists prev. split; [exact Hp|].
  replace (Z.to_nat t) with (S (Z.to_nat (t - 1))) by lia. exact Hn.
Qed.

End Engine_facts.

Section Revenue_facts.
Context {num : Type} `{Number num}.

(** The revenue loop never raises, and its row for index [i] is the loop
    body at [i]. *)
Lemma tax_revenue_total (simulation_results : list (YearSnapshot num)) (g p : num) :
  ∃ rows, tax_revenue simulation_results g p = Some rows
        ∧ ∀ i : Z, 1 ≤ i < Z.of_nat (length simulation_results) →
            rows !! Z.to_nat (i - 1) = tax_revenue_row simulation_results g p i.
Proof.
  unfold tax_revenue.
  set (n := Z.of_nat (length simulation_results)).
  assert (Hall : Forall (is_Some ∘ tax_revenue_row simulation_results g p) (range 1 n)).
  { apply Forall_lookup_2. intros k i Hk.
    pose proof (lookup_lt_Some _ _ _ Hk) as Hlt. rewrite length_range in Hlt.
    rewrite lookup_range in Hk by done. injection Hk as <-.
    simpl. unfold tax_revenue_row.
    destruct (lookup_lt_is_Some_2 simulation_results (Z.to_nat (1 + Z.of_nat k)))
      as [cur ->]; [lia|].
    destruct (lookup_lt_is_Some_2 simulation_results (Z.to_nat (1 + Z.of_nat k - 1)))
      as [prev ->]; [lia|].
    simpl. by eexists. }
  apply mapM_is_Some in Hall. destruct Hall as [rows Hrows].
  exists rows. split; [exact Hrows|].
  intros i Hi. apply mapM_Some in Hrows.
  assert (Hk : range 1 n !! Z.to_nat (i - 1) = Some i).
  { rewrite lookup_range by lia. f_equal. lia. }
  destruct (Forall2_lookup_l _ _ _ _ _ Hrows Hk) as (row & Hrow & Hf).
  by rewrite Hrow, Hf.
Qed.

End Revenue_facts.

(** ** Shape of the trajectory, for any arithmetic *)

(** C2: for a dictionary that holds the three groups and a horizon
    [years >= 0], the engine returns a trajectory of [years + 1] rows; the
    first row is the initial wealth of the three groups, unchanged, at
    year 0; the year fields are 0, 1, ..., [years], strictly increasing
    along the rows; and for [years = 0] the trajectory is that single
    initial row. *)
Theorem trajectory_shape {num : Type} `{Number num}
    (wealth_groups : gmap string (WealthGroup num)) (u m l : WealthGroup num) (years : Z)
    (tax_rate threshold growth_rate high_wealth_premium redistribution_eff : num) :
  wealth_groups !! ULTRA = Some u → wealth_groups !! MIDDLE = Some m →
  wealth_groups !! LOWER = Some l →
  0 ≤ years →
  let initial := {| year := 0; ultra_wealthy := total_wealth u;
                    middle_wealth := total_wealth m; lower_wealth := total_wealth l |} in
  ∃ traj,
    simulate_wealth_tax_impact wealth_groups years tax_rate threshold growth_rate
      high_wealth_premium redistribution_eff = Some traj
    ∧ Z.of_nat (length traj) = years + 1
    ∧ traj !! 0%nat = Some initial
    ∧ year <$> traj = range 0 (years + 1)
    ∧ (∀ i j a b, traj !! i = Some a → traj !! j = Some b → (i < j)%nat → year a < year b)
    ∧ (years = 0 → traj = [initial]).
Proof.
  intros Hu Hm Hl Hyears initial.
  assert (Hs0 : initial_state wealth_groups = Some initial).
  { unfold initial_state. by rewrite Hu, Hm, Hl. }
  eexists. split; [exact (simulate_unfold _ _ _ _ _ _ _ _ Hs0)|].
  assert (Hyrs : year <$> initial :: appended tax_rate growth_rate high_wealth_premium
                              redistribution_eff initial (range 1 (years + 1))
                 = range 0 (years + 1)).
  { rewrite fmap_cons, year_appended. rewrite (range_cons 0) by lia. done. }
  split; [|split; [done|split; [exact Hyrs|split]]].
  - simpl. rewrite length_appended, length_range. lia.
  - intros i j a b Ha Hb Hij.
    assert (Hya : range 0 (years + 1) !! i = Some (year a)).
    { rewrite <- Hyrs, list_lookup_fmap, Ha. done. }
    assert (Hyb : range 0 (years + 1) !! j = Some (year b)).
    { rewrite <- Hyrs, list_lookup_fmap, Hb. done. }
    pose proof (lookup_lt_Some _ _ _ Hya) as Hi.
    pose proof (lookup_lt_Some _ _ _ Hyb) as Hj.
    rewrite length_range in Hi, Hj.
    rewrite lookup_range in Hya by done. rewrite lookup_range in Hyb by done.
    injection Hya as <-. injection Hyb as <-. lia.
  - intros ->. by rewrite range_empty.
Qed.

Lemma trajectory_shape_witness :
  let u := {| population := of_decimal 22 3; total_wealth := of_int 1200 |} in
  let m := {| population := of_int 30; total_wealth := of_int 8000 |} in
  let l := {| population := of_int 36; total_wealth := of_int 800 |} in
  let initial := {| year := 0; ultra_wealthy := of_int 1200; middle_wealth := of_int 8000;
                    lower_wealth := of_int 800 |} in
  initialize_wealth_groups !! ULTRA = Some u
  ∧ initialize_wealth_groups !! MIDDLE = Some m
  ∧ initialize_wealth_groups !! LOWER = Some l
  ∧ 0 ≤ 2
  ∧ ∃ traj,
      simulate_wealth_tax_impact initialize_wealth_groups 2 Defaults.tax_rate
        Defaults.wealth_threshold Defaults.avg_growth_rate
        Defaults.high_wealth_growth_premium Defaults.redistribution_efficiency
        = Some traj
      ∧ Z.of_nat (length traj) = 2 + 1
      ∧ traj !! 0%nat = Some initial
      ∧ year <$> traj = range 0 (2 + 1)
      ∧ (∀ i j a b, traj !! i = Some a → traj !! j = Some b → (i < j)%nat → year a < year b)
      ∧ (2 = 0 → traj = [initial]).
Proof.
  intros u m l initial.
  assert (Hu : initialize_wealth_groups !! ULTRA = Some u) by (vm_compute; reflexivity).
  assert (Hm : initialize_wealth_groups !! MIDDLE = Some m) by (vm_compute; reflexivity).
  assert (Hl : initialize_wealth_groups !! LOWER = Some l) by (vm_compute; reflexivity).
  assert (Hy : 0 ≤ 2) by lia.
  repeat (split; [assumption|]).
  exact (trajectory_shape initialize_wealth_groups u m l 2 Defaults.tax_rate
           Defaults.wealth_threshold Defaults.avg_growth_rate
           Defaults.high_wealth_growth_premium Defaults.redistribution_efficiency
           Hu Hm Hl Hy).
Defined.

(** C5: the wealth threshold does not influence the output: two runs
    that differ only in the threshold return the same result. *)
Theorem threshold_noninterference {num : Type} `{Number num}
    (wealth_groups : gmap string (WealthGroup num)) (years : Z)
    (tax_rate growth_rate high_wealth_premium redistribution_eff : num)
    (threshold1 threshold2 : num) :
  simulate_wealth_tax_impact wealth_groups years tax_rate threshold1 growth_rate
    high_wealth_premium redistribution_eff
  = simulate_wealth_tax_impact wealth_groups years tax_rate threshold2 growth_rate
      high_wealth_premium redistribution_eff.
Proof. reflexivity. Qed.

(** ** Special values of binary64 *)

Section Special_values.
Local Open Scope num_scope.

Lemma SFcompare_refl_finite (s : bool) (mx : positive) (ex : Z) :
  SFcompare (S754_finite s mx ex) (S754_finite s mx ex) = Some Eq.
Proof.
  simpl. destruct s; rewrite Z.compare_refl, ?Pos.compare_cont_refl; simpl;
    by rewrite ?Pos.compare_refl.
Qed.

Lemma SFeqb_refl_finite (s : bool) (mx : positive) (ex : Z) :
  SFeqb (S754_finite s mx ex) (S754_finite s mx ex) = true.
Proof. unfold SFeqb. by rewrite SFcompare_refl_finite. Qed.

Lemma SFeqb_refl_not_nan (x : spec_float) : x ≠ S754_nan → SFeqb x x = true.
Proof.
  destruct x as [s|s| |s mx ex]; intros Hx; try done.
  - by destruct s.
  - apply SFeqb_refl_finite.
Qed.

Lemma is_nan_spec (x : float) : PrimFloat.is_nan x = true ↔ Prim2SF x = S754_nan.
Proof.
  unfold PrimFloat.is_nan. rewrite FloatAxioms.eqb_spec. split.
  - intros Hx. destruct (Prim2SF x) eqn:Hp; try done;
      rewrite SFeqb_refl_not_nan in Hx; done.
  - by intros ->.
Qed.

Lemma is_zero_spec (x : float) : PrimFloat.is_zero x = true ↔ ∃ s, Prim2SF x = S754_zero s.
Proof.
  unfold PrimFloat.is_zero. rewrite FloatAxioms.eqb_spec.
  change (Prim2SF zero) with (S754_zero false).
  destruct (Prim2SF x) as [s|s| |s m e]; unfold SFeqb; simpl.
  - split; [by eexists|done].
  - split; [by destruct s|by intros [? ?]].
  - split; [done|by intros [? ?]].
  - split; [by destruct s|by intros [? ?]].
Qed.

Lemma is_finite_spec (x : float) :
  PrimFloat.is_finite x = true
  ↔ (∃ s, Prim2SF x = S754_zero s) ∨ (∃ s m e, Prim2SF x = S754_finite s m e).
Proof.
  unfold PrimFloat.is_finite, PrimFloat.is_nan, PrimFloat.is_infinity.
  rewrite !FloatAxioms.eqb_spec, abs_spec.
  change (Prim2SF infinity) with (S754_infinity false).
  destruct (Prim2SF x) as [s|s| |s m e] eqn:E.
  - split; [intros _; left; by eexists|]. intros _. by destruct s.
  - split; [by destruct s|]. intros [[? ?]|(? & ? & ? & ?)]; done.
  - split; [done|]. intros [[? ?]|(? & ? & ? & ?)]; done.
  - split; [intros _; right; by eexists _, _, _|]. intros _.
    rewrite SFeqb_refl_finite. simpl. done.
Qed.

(** A finite number times a zero is a zero; an infinity or [nan] times a
    zero is [nan]. *)
Lemma is_zero_mul_r (a z : float) :
  PrimFloat.is_finite a = true → PrimFloat.is_zero z = true →
  PrimFloat.is_zero (a * z) = true.
Proof.
  rewrite is_finite_spec, !is_zero_spec. intros Ha [s Hz].
  change (a * z) with (PrimFloat.mul a z). rewrite mul_spec, Hz.
  destruct Ha as [[sa ->]|(sa & m & e & ->)]; by eexists.
Qed.

Lemma is_zero_mul_l (z a : float) :
  PrimFloat.is_zero z = true → PrimFloat.is_finite a = true →
  PrimFloat.is_zero (z * a) = true.
Proof.
  rewrite is_finite_spec, !is_zero_spec. intros [s Hz] Ha.
  change (z * a) with (PrimFloat.mul z a). rewrite mul_spec, Hz.
  destruct Ha as [[sa ->]|(sa & m & e & ->)]; by eexists.
Qed.

Lemma is_nan_mul_zero (a z : float) :
  PrimFloat.is_finite a = false → PrimFloat.is_zero z = true →
  PrimFloat.is_nan (a * z) = true.
Proof.
  intros Ha. rewrite is_zero_spec, is_nan_spec. intros [s Hz].
  change (a * z) with (PrimFloat.mul a z). rewrite mul_spec, Hz.
  destruct (Prim2SF a) as [sa|sa| |sa m e] eqn:E; try done.
  - assert (PrimFloat.is_finite a = true); [|congruence].
    apply is_finite_spec. left. by eexists.
  - assert (PrimFloat.is_finite a = true); [|congruence].
    apply is_finite_spec. right. by eexists _, _, _.
Qed.

(** A zero rate is a zero fraction. *)
Lemma is_zero_percent (z : float) :
  PrimFloat.is_zero z = true → PrimFloat.is_zero (z / of_int 100) = true.
Proof.
  rewrite !is_zero_spec. intros [s Hz].
  change (z / of_int 100) with (PrimFloat.div z (of_int 100)).
  rewrite div_spec, Hz. by eexists.
Qed.

(** Adding a zero changes nothing but, possibly, the sign of a zero. *)
Lemma same_number_add_zero (a z : float) :
  PrimFloat.is_zero z = true → same_number (a + z) a.
Proof.
  rewrite is_zero_spec. intros [s Hz].
  destruct (Prim2SF a) as [sa|sa| |sa m e] eqn:E.
  - right. rewrite !is_zero_spec. split; [|by eexists].
    change (a + z) with (PrimFloat.add a z). rewrite add_spec, Hz, E.
    destruct sa, s; by eexists.
  - left. apply Prim2SF_inj. change (a + z) with (PrimFloat.add a z).
    rewrite add_spec, Hz, E. done.
  - left. apply Prim2SF_inj. change (a + z) with (PrimFloat.add a z).
    rewrite add_spec, Hz, E. done.
  - left. apply Prim2SF_inj. change (a + z) with (PrimFloat.add a z).
    rewrite add_spec, Hz, E. done.
Qed.

(** One pass of the loop body without a tax. *)
Lemma zero_tax_step (tax_rate growth_rate high_wealth_premium redistribution_eff : float)
    (current_state : YearSnapshot float) :
  PrimFloat.is_zero tax_rate = true →
  PrimFloat.is_finite redistribution_eff = true →
  let l := year_body tax_rate growth_rate high_wealth_premium redistribution_eff
             current_state in
  (PrimFloat.is_finite (ultra_wealthy_new l) = true →
     PrimFloat.is_zero (tax_collected l) = true
     ∧ same_number (middle_wealth_final l) (middle_wealth_new l)
     ∧ same_number (lower_wealth_final l) (lower_wealth_new l))
  ∧ (PrimFloat.is_finite (ultra_wealthy_new l) = false →
     PrimFloat.is_nan (tax_collected l) = true).
Proof.
  intros Htax Heff l. pose proof (is_zero_percent _ Htax) as Hk. split.
  - intros Hnew.
    assert (Ht : PrimFloat.is_zero (tax_collected l) = true)
      by (by apply is_zero_mul_r).
    assert (Hr : PrimFloat.is_zero (tax_to_redistribute l) = true)
      by (by apply is_zero_mul_l).
    split; [exact Ht|]. split; apply same_number_add_zero; by apply is_zero_mul_l.
  - intros Hnew. by apply is_nan_mul_zero.
Qed.

End Special_values.

(** ** Binary64 arithmetic

    What the operations of the code guarantee, from the specification of
    the primitive floats: the result of a sum, a difference or a product
    that has not overflowed is the exact result rounded to a nearest
    float, so it is within a relative [2^-53] of it (or within [2^-1075],
    below the normal range), it has its sign, and it does not step over
    a float that bounds the exact result. *)

Section Digits.

Lemma digits2_pos_size (m : positive) : digits2_pos m = Pos.size m.
Proof. induction m as [m IH|m IH|]; simpl; by rewrite ?IH. Qed.

Lemma digits2_bounds (m : positive) :
  2 ^ (Z.pos (digits2_pos m) - 1) ≤ Z.pos m < 2 ^ Z.pos (digits2_pos m).
Proof.
  rewrite digits2_pos_size.
  pose proof (Pos.size_gt m) as Hgt. pose proof (Pos.size_le m) as Hle.
  assert (Hpow : Z.pos (2 ^ Pos.size m) = 2 ^ Z.pos (Pos.size m)) by (by rewrite Pos2Z.inj_pow).
  assert (H2 : 2 ^ Z.pos (Pos.size m) = 2 * 2 ^ (Z.pos (Pos.size m) - 1)).
  { rewrite <- Z.pow_succ_r by lia. f_equal. lia. }
  split; [|lia].
  assert (Z.pos (2 ^ Pos.size m) ≤ Z.pos m~0) by lia.
  lia.
Qed.

Lemma digits2_unique (m : positive) (k : Z) :
  2 ^ (k - 1) ≤ Z.pos m < 2 ^ k → Z.pos (digits2_pos m) = k.
Proof.
  intros [Hlo Hhi]. pose proof (digits2_bounds m) as [Hlo' Hhi'].
  assert (0 < k). { destruct (Z.lt_trichotomy k 0) as [?|[->|?]]; [|simpl in Hhi; lia|lia].
                    rewrite Z.pow_neg_r in Hhi by lia. lia. }
  destruct (Z.lt_trichotomy (Z.pos (digits2_pos m)) k) as [Hlt|[?|Hgt]]; [|done|].
  - assert (2 ^ Z.pos (digits2_pos m) ≤ 2 ^ (k - 1)) by (apply Z.pow_le_mono_r; lia). lia.
  - assert (2 ^ k ≤ 2 ^ (Z.pos (digits2_pos m) - 1)) by (apply Z.pow_le_mono_r; lia). lia.
Qed.

End Digits.

Section Shift.

Lemma iter_pos_nat {A} (f : A → A) (p : positive) (x : A) :
  SpecFloat.iter_pos f p x = Nat.iter (Pos.to_nat p) f x.
Proof.
  revert x. induction p as [p IH|p IH|]; intros x; cbn [SpecFloat.iter_pos].
  - rewrite !IH, Pos2Nat.inj_xI.
    replace (S (2 * Pos.to_nat p)) with (Pos.to_nat p + Pos.to_nat p + 1)%nat by lia.
    by rewrite !Nat.iter_add.
  - rewrite !IH, Pos2Nat.inj_xO.
    replace (2 * Pos.to_nat p)%nat with (Pos.to_nat p + Pos.to_nat p)%nat by lia.
    by rewrite Nat.iter_add.
  - done.
Qed.

Lemma odd_mod2 (q : Z) : q mod 2 = if Z.odd q then 1 else 0.
Proof.
  destruct (Z.odd q) eqn:E.
  - apply Z.odd_spec in E. destruct E as [h Eh]. subst q.
    rewrite Z.add_comm, Z.mul_comm. by rewrite Z.mod_add.
  - assert (Hev : Z.even q = true) by (by rewrite <- Z.negb_odd, E).
    apply Z.even_spec in Hev as [h Eh]. subst q. rewrite Z.mul_comm. by rewrite Z.mod_mul.
Qed.

Lemma shr_1_nonneg (m : Z) (r s : bool) :
  0 ≤ m →
  shr_1 {| shr_m := m; shr_r := r; shr_s := s |}
  = {| shr_m := m / 2; shr_r := Z.odd m; shr_s := r || s |}.
Proof.
  intros Hm. rewrite <- Z.div2_div.
  destruct m as [|p|p]; [done| |lia]. by destruct p.
Qed.

(** [j + 1] shifts of an exact record. *)
Lemma shr_iter (m : Z) (j : nat) :
  0 ≤ m →
  Nat.iter (S j) shr_1 {| shr_m := m; shr_r := false; shr_s := false |}
  = {| shr_m := m / 2 ^ (Z.of_nat j + 1);
       shr_r := Z.odd (m / 2 ^ Z.of_nat j);
       shr_s := negb (m mod 2 ^ Z.of_nat j =? 0) |}.
Proof.
  intros Hm. induction j as [|j IH].
  - rewrite Nat.iter_succ. change (Nat.iter 0 shr_1 ?r) with r. rewrite shr_1_nonneg by done. simpl.
    rewrite Z.div_1_r, Z.mod_1_r. done.
  - rewrite Nat.iter_succ, IH.
    assert (Hp : 0 < 2 ^ Z.of_nat j) by (apply Z.pow_pos_nonneg; lia).
    rewrite shr_1_nonneg by (apply Z.div_pos; [done|apply Z.pow_pos_nonneg; lia]).
    replace (Z.of_nat (S j)) with (Z.of_nat j + 1) by lia.
    f_equal.
    + rewrite Z.div_div by lia. f_equal. rewrite (Z.pow_add_r 2 (_ + 1)) by lia. done.
    + rewrite Z.pow_add_r by lia. change (2 ^ 1) with 2.
      set (K := 2 ^ Z.of_nat j) in *.
      set (q := m / K). assert (Hm' : m = K * q + m mod K) by (apply Z.div_mod; lia).
      pose proof (Z.mod_pos_bound m K Hp) as Hr. set (ρ := m mod K) in *.
      assert (Hmod : m mod (K * 2) = K * (q mod 2) + ρ).
      { symmetry. apply (Z.mod_unique_pos _ _ (q / 2)).
        - pose proof (Z.mod_pos_bound q 2 ltac:(lia)). nia.
        - pose proof (Z.div_mod q 2 ltac:(lia)). nia. }
      rewrite Hmod.
      pose proof (odd_mod2 q) as Hodd.
      rewrite Hodd.
      destruct (Z.odd q); [destruct (Z.eqb_spec (K * 1 + ρ) 0)|destruct (Z.eqb_spec (K * 0 + ρ) 0)];
        destruct (Z.eqb_spec ρ 0); simpl; try done; nia.
Qed.

End Shift.

Section Rounding.

Lemma round_shift (m : Z) (j : nat) :
  0 ≤ m →
  let mrs := Nat.iter (S j) shr_1 {| shr_m := m; shr_r := false; shr_s := false |} in
  rounds_to (2 ^ (Z.of_nat j + 1)) m
    (round_nearest_even (shr_m mrs) (loc_of_shr_record mrs)).
Proof.
  intros Hm mrs. unfold mrs. rewrite shr_iter by done.
  assert (Hp : 0 < 2 ^ Z.of_nat j) by (apply Z.pow_pos_nonneg; lia).
  rewrite Z.pow_add_r by lia. change (2 ^ 1) with 2.
  set (K := 2 ^ Z.of_nat j) in *.
  set (q := m / K). assert (Hm' : m = K * q + m mod K) by (apply Z.div_mod; lia).
  pose proof (Z.mod_pos_bound m K Hp) as Hr. set (ρ := m mod K) in *.
  assert (Hmod : m mod (K * 2) = K * (q mod 2) + ρ).
  { symmetry. apply (Z.mod_unique_pos _ _ (q / 2)).
    - pose proof (Z.mod_pos_bound q 2 ltac:(lia)). nia.
    - pose proof (Z.div_mod q 2 ltac:(lia)). nia. }
  assert (Hdiv : m / (K * 2) = q / 2).
  { unfold q. rewrite Z.div_div by lia. done. }
  pose proof (odd_mod2 q) as Hodd.
  pose proof (Z.div_mod q 2 ltac:(lia)) as Hq.
  unfold rounds_to. rewrite Hmod, Hdiv, Hodd. simpl.
  set (h := q / 2) in *. rewrite Hodd in Hq.
  destruct (Z.odd q); destruct (Z.eqb_spec ρ 0) as [E|E]; simpl.
  - destruct (Z.even h) eqn:Ev; repeat split; try nia.
  - repeat split; nia.
  - repeat split; nia.
  - repeat split; nia.
Qed.

End Rounding.

Section Round_aux.

Lemma fexp_eq (x : Z) : fexp prec emax x = Z.max (x - 53) (-1074).
Proof. reflexivity. Qed.

Lemma shr_nonpos (mrs : shr_record) (e n : Z) : n ≤ 0 → shr mrs e n = (mrs, e).
Proof. intros Hn. destruct n as [|p|p]; [done|lia|done]. Qed.

Lemma shr_pos (m e n : Z) :
  0 ≤ m → 0 < n →
  ∃ mrs, shr {| shr_m := m; shr_r := false; shr_s := false |} e n = (mrs, e + n)
       ∧ rounds_to (2 ^ n) m (round_nearest_even (shr_m mrs) (loc_of_shr_record mrs)).
Proof.
  intros Hm Hn. destruct n as [|p|p]; try lia.
  unfold shr. eexists. split; [reflexivity|].
  rewrite iter_pos_nat.
  destruct (Pos.to_nat p) as [|j] eqn:Ej; [lia|].
  replace (Z.pos p) with (Z.of_nat j + 1) by lia.
  by apply round_shift.
Qed.

Lemma Zdigits2_pos (m : positive) : Zdigits2 (Z.pos m) = Z.pos (digits2_pos m).
Proof. reflexivity. Qed.

(** Rounding an exact product or sum [m * 2^e]. *)
Lemma binary_round_aux_exact (s : bool) (m : positive) (e : Z) :
  let f := fexp prec emax (Z.pos (digits2_pos m) + e) in
  ∃ M, represents (binary_round_aux prec emax s (Z.pos m) e loc_Exact) s M (Z.max e f)
     ∧ (f ≤ e → M = Z.pos m)
     ∧ (e < f → rounds_to (2 ^ (f - e)) (Z.pos m) M).
Proof.
  intros f. unfold binary_round_aux, shr_fexp. rewrite Zdigits2_pos. fold f.
  pose proof (digits2_bounds m) as Hd. set (d := Z.pos (digits2_pos m)) in *.
  assert (Hf : f = Z.max (d + e - 53) (-1074)) by apply fexp_eq.
  destruct (Z_le_gt_dec f e) as [Hle|Hgt].
  - (* no shift *)
    cbn [shr_record_of_loc]. rewrite shr_nonpos by lia.
    cbn [shr_m loc_of_shr_record round_nearest_even].
    rewrite Zdigits2_pos. fold d. fold f. rewrite shr_nonpos by lia.
    cbn [shr_m]. exists (Z.pos m). split; [|split; [done|lia]].
    destruct (e <=? emax - prec); simpl; [|done].
    split; [done|]. split; [lia|]. replace (e - Z.max e f) with 0 by lia. lia.
  - (* a shift by [f - e] *)
    cbn [shr_record_of_loc].
    destruct (shr_pos (Z.pos m) e (f - e)) as (mrs & -> & Hround); [lia|lia|].
    set (M := round_nearest_even (shr_m mrs) (loc_of_shr_record mrs)) in *.
    replace (e + (f - e)) with f by lia.
    exists M. split; [|split; [lia|done]].
    destruct Hround as ((Hlo & Hhi) & Hexact & Herr).
    assert (Hq : 0 ≤ Z.pos m / 2 ^ (f - e) < 2 ^ 53).
    { split; [apply Z.div_pos; [lia|apply Z.pow_pos_nonneg; lia]|].
      apply Z.div_lt_upper_bound; [apply Z.pow_pos_nonneg; lia|].
      rewrite <- Z.pow_add_r by lia.
      assert (2 ^ d ≤ 2 ^ (f - e + 53)) by (apply Z.pow_le_mono_r; lia). lia. }
    replace (Z.max e f) with f by lia.
    destruct M as [|m1|m1] eqn:EM; [| |lia].
    + (* rounded to zero *)
      cbn [shr_record_of_loc Zdigits2]. rewrite shr_nonpos by (rewrite fexp_eq; lia).
      cbn [shr_m]. done.
    + pose proof (digits2_bounds m1) as Hd1. rewrite Zdigits2_pos.
      set (d1 := Z.pos (digits2_pos m1)) in *.
      destruct (Z_lt_le_dec (Z.pos m1) (2 ^ 53)) as [Hlt|Hge].
      * assert (d1 ≤ 53).
        { destruct (Z_le_gt_dec d1 53); [done|].
          assert (2 ^ 53 ≤ 2 ^ (d1 - 1)) by (apply Z.pow_le_mono_r; lia). lia. }
        cbn [shr_record_of_loc]. rewrite shr_nonpos by (rewrite fexp_eq; lia).
        cbn [shr_m]. destruct (f <=? emax - prec); simpl; [|done].
        split; [done|]. split; [lia|]. replace (f - f) with 0 by lia. lia.
      * assert (Hm1 : Z.pos m1 = 2 ^ 53) by lia.
        assert (Hd1' : d1 = 54).
        { apply digits2_unique. rewrite Hm1. split; [done|].
          apply Z.pow_lt_mono_r; lia. }
        cbn [shr_record_of_loc].
        replace (fexp prec emax (d1 + f) - f) with 1 by (rewrite fexp_eq; lia).
        assert (Em1 : m1 = (2 ^ 53)%positive) by (apply Pos2Z.inj; rewrite Hm1; done).
        subst m1. cbn [shr SpecFloat.iter_pos shr_1 shr_m].
        destruct (f + 1 <=? emax - prec); simpl; [|done].
        split; [done|]. split; [lia|]. replace (f + 1 - f) with 1 by lia. done.
Qed.

End Round_aux.

Section Located.

Lemma loc_of_shr_record_of_loc (m : Z) (l : location) :
  loc_of_shr_record (shr_record_of_loc m l) = l ∧ shr_m (shr_record_of_loc m l) = m.
Proof. by destruct l as [|[]]. Qed.

(** A located mantissa is an exact one with two more bits, shifted twice. *)
Lemma shr_record_of_loc_iter (m : Z) (l : location) :
  0 ≤ m →
  shr_record_of_loc m l
  = Nat.iter 2 shr_1 {| shr_m := 4 * m + loc_bits l; shr_r := false; shr_s := false |}.
Proof.
  intros Hm. rewrite (shr_iter _ 1) by (destruct l as [|[]]; simpl; lia).
  change (2 ^ (Z.of_nat 1 + 1)) with 4. change (2 ^ Z.of_nat 1) with 2.
  assert (Hb : 0 ≤ loc_bits l < 4) by (destruct l as [|[]]; simpl; lia).
  assert (H4 : (4 * m + loc_bits l) / 4 = m).
  { symmetry. apply (Z.div_unique _ _ _ (loc_bits l)); lia. }
  rewrite H4.
  destruct l as [|[]]; simpl loc_bits in *; cbn [shr_record_of_loc]; f_equal.
  - replace ((4 * m + 0) / 2) with (2 * m) by (apply (Z.div_unique _ _ _ 0); lia).
    by rewrite Z.odd_mul.
  - replace (4 * m + 0) with ((2 * m) * 2) by lia. by rewrite Z.mod_mul.
  - replace ((4 * m + 2) / 2) with (2 * m + 1) by (apply (Z.div_unique _ _ _ 0); lia).
    rewrite Z.odd_add, Z.odd_mul. done.
  - replace (4 * m + 2) with ((2 * m + 1) * 2) by lia. by rewrite Z.mod_mul.
  - replace ((4 * m + 1) / 2) with (2 * m) by (apply (Z.div_unique _ _ _ 1); lia).
    by rewrite Z.odd_mul.
  - replace ((4 * m + 1) mod 2) with 1; [done|]. apply (Z.mod_unique _ _ (2 * m)); lia.
  - replace ((4 * m + 3) / 2) with (2 * m + 1) by (apply (Z.div_unique _ _ _ 1); lia).
    rewrite Z.odd_add, Z.odd_mul. done.
  - replace ((4 * m + 3) mod 2) with 1; [done|]. apply (Z.mod_unique _ _ (2 * m + 1)); lia.
Qed.

(** The first stage of rounding a located mantissa. *)
Lemma shr_located (m e n : Z) (l : location) :
  0 ≤ m →
  ∃ mrs, shr (shr_record_of_loc m l) e n = (mrs, e + Z.max n 0)
       ∧ rounds_to (2 ^ (Z.max n 0 + 2)) (4 * m + loc_bits l)
           (round_nearest_even (shr_m mrs) (loc_of_shr_record mrs)).
Proof.
  intros Hm.
  assert (Hb : 0 ≤ loc_bits l < 4) by (destruct l as [|[]]; simpl; lia).
  destruct (Z_le_gt_dec n 0) as [Hn|Hn].
  - rewrite shr_nonpos by done. eexists. split; [f_equal; lia|].
    replace (Z.max n 0) with 0 by lia.
    rewrite shr_record_of_loc_iter by done.
    apply (round_shift _ 1). lia.
  - destruct n as [|p|p]; try lia. unfold shr. eexists. split; [f_equal; lia|].
    rewrite iter_pos_nat, shr_record_of_loc_iter, <- Nat.iter_add by done.
    replace (Z.max (Z.pos p) 0 + 2) with (Z.of_nat (Pos.to_nat p + 1) + 1) by lia.
    replace (Pos.to_nat p + 2)%nat with (S (Pos.to_nat p + 1)) by lia.
    apply round_shift. lia.
Qed.

(** The second stage: a rounded mantissa of at most [2^53] is stored as
    it is, or as [2^52] one exponent up. *)
Lemma round_finish (s : bool) (M E : Z) :
  0 ≤ M ≤ 2 ^ 53 → -1074 ≤ E →
  ∃ mrs e,
    shr_fexp prec emax M E loc_Exact = (mrs, e)
    ∧ represents
        match shr_m mrs with
        | 0 => S754_zero s
        | Z.pos m => if e <=? emax - prec then S754_finite s m e else S754_infinity s
        | Z.neg _ => S754_nan
        end s M E.
Proof.
  intros HM HE. unfold shr_fexp.
  destruct M as [|m1|m1] eqn:EM; [| |lia].
  - cbn [shr_record_of_loc Zdigits2]. rewrite shr_nonpos by (rewrite fexp_eq; lia).
    eexists _, _. split; [reflexivity|]. done.
  - pose proof (digits2_bounds m1) as Hd1. rewrite Zdigits2_pos.
    set (d1 := Z.pos (digits2_pos m1)) in *.
    destruct (Z_lt_le_dec (Z.pos m1) (2 ^ 53)) as [Hlt|Hge].
    + assert (d1 ≤ 53).
      { destruct (Z_le_gt_dec d1 53); [done|].
        assert (2 ^ 53 ≤ 2 ^ (d1 - 1)) by (apply Z.pow_le_mono_r; lia). lia. }
      cbn [shr_record_of_loc]. rewrite shr_nonpos by (rewrite fexp_eq; lia).
      eexists _, _. split; [reflexivity|].
      cbn [shr_m]. destruct (E <=? emax - prec); simpl; [|done].
      split; [done|]. split; [lia|]. replace (E - E) with 0 by lia. lia.
    + assert (Hm1 : Z.pos m1 = 2 ^ 53) by lia.
      assert (Hd1' : d1 = 54).
      { apply digits2_unique. rewrite Hm1. split; [done|].
        apply Z.pow_lt_mono_r; lia. }
      cbn [shr_record_of_loc].
      replace (fexp prec emax (d1 + E) - E) with 1 by (rewrite fexp_eq; lia).
      assert (Em1 : m1 = (2 ^ 53)%positive) by (apply Pos2Z.inj; rewrite Hm1; done).
      subst m1. cbn [shr SpecFloat.iter_pos shr_1 shr_m].
      eexists _, _. split; [reflexivity|]. cbn [shr_m].
      destruct (E + 1 <=? emax - prec); simpl; [|done].
      split; [done|]. split; [lia|]. replace (E + 1 - E) with 1 by lia. done.
Qed.

Lemma Zdigits2_bounds (m : Z) : 0 ≤ m → m < 2 ^ Zdigits2 m ∧ 0 ≤ Zdigits2 m.
Proof.
  intros Hm. destruct m as [|p|p]; [done| |lia].
  rewrite Zdigits2_pos. pose proof (digits2_bounds p). lia.
Qed.

(** Rounding a located mantissa [m] at exponent [e]: the result stands
    for [M * 2^E], where [M] is [(4 m + bits) / 2^(E - e + 2)] rounded to
    a nearest integer. *)
Lemma binary_round_aux_located (s : bool) (m e : Z) (l : location) :
  0 ≤ m →
  let f := fexp prec emax (Zdigits2 m + e) in
  let E := Z.max e f in
  ∃ M, represents (binary_round_aux prec emax s m e l) s M E
     ∧ rounds_to (2 ^ (E - e + 2)) (4 * m + loc_bits l) M.
Proof.
  intros Hm f E. unfold binary_round_aux, shr_fexp at 1. fold f.
  destruct (shr_located m e (f - e) l Hm) as (mrs & -> & Hround).
  set (M := round_nearest_even (shr_m mrs) (loc_of_shr_record mrs)) in *.
  replace (e + Z.max (f - e) 0) with E by lia.
  replace (Z.max (f - e) 0 + 2) with (E - e + 2) in Hround by lia.
  exists M. split; [|done].
  assert (Hb : 0 ≤ loc_bits l < 4) by (destruct l as [|[]]; simpl; lia).
  destruct (Zdigits2_bounds m Hm) as [Hd Hd0]. set (d := Zdigits2 m) in *.
  assert (Hf : f = Z.max (d + e - 53) (-1074)) by apply fexp_eq.
  destruct Hround as ((Hlo & Hhi) & _ & _).
  assert (HK : 0 < 2 ^ (E - e)) by (apply Z.pow_pos_nonneg; lia).
  assert (Hdiv : (4 * m + loc_bits l) / 2 ^ (E - e + 2) = m / 2 ^ (E - e)).
  { rewrite Z.pow_add_r by lia. change (2 ^ 2) with 4.
    rewrite (Z.mul_comm (2 ^ _) 4), <- Z.div_div by lia. f_equal.
    symmetry. apply (Z.div_unique _ _ _ (loc_bits l)); lia. }
  rewrite Hdiv in Hlo, Hhi.
  assert (Hq : 0 ≤ m / 2 ^ (E - e) < 2 ^ 53).
  { split; [apply Z.div_pos; lia|].
    apply Z.div_lt_upper_bound; [lia|].
    rewrite <- Z.pow_add_r by lia.
    assert (2 ^ d ≤ 2 ^ (E - e + 53)) by (apply Z.pow_le_mono_r; lia). lia. }
  destruct (round_finish s M E) as (mrs2 & e2 & -> & Hrep); [lia|lia|].
  exact Hrep.
Qed.

End Located.

Section Values.
Local Open Scope Q_scope.

Lemma inject_Z_nonneg (z : Z) : (0 ≤ z)%Z → 0 <= inject_Z z.
Proof. intros Hz. change (inject_Z 0 <= inject_Z z). by rewrite <- Zle_Qle. Qed.

Lemma inject_Z_pos (z : Z) : (0 < z)%Z → 0 < inject_Z z.
Proof. intros Hz. change (inject_Z 0 < inject_Z z). by rewrite <- Zlt_Qlt. Qed.

Lemma pow2_pos (e : Z) : 0 < pow2 e.
Proof. apply Qpower_0_lt. reflexivity. Qed.

Lemma pow2_add (a b : Z) : pow2 (a + b) == pow2 a * pow2 b.
Proof. apply Qpower_plus. discriminate. Qed.

Lemma pow2_Z (n : Z) : (0 ≤ n)%Z → inject_Z (2 ^ n) == pow2 n.
Proof. intros Hn. by rewrite Zpower_Qpower. Qed.

Lemma pow2_split (e E : Z) : (E ≤ e)%Z → pow2 e == inject_Z (2 ^ (e - E)) * pow2 E.
Proof.
  intros Hle. rewrite pow2_Z by lia. rewrite <- pow2_add. by replace (e - E + E)%Z with e by lia.
Qed.

Lemma Qabs_sign_of (s : bool) (x : Q) : Qabs (sign_of s * x) == Qabs x.
Proof.
  destruct s; unfold sign_of.
  - setoid_replace (-1 * x) with (- x) using relation Qeq by ring. apply Qabs_opp.
  - by setoid_replace (1 * x) with x using relation Qeq by ring.
Qed.

(** The value of a rounded result that has not overflowed. *)
Lemma represents_value (r : spec_float) (s : bool) (M E : Z) :
  represents r s M E → (∀ s', r ≠ S754_infinity s') →
  SF2Q r == sign_of s * (inject_Z M * pow2 E).
Proof.
  intros Hr Hfin. destruct r as [s'|s'| |s' m e]; simpl in *.
  - destruct Hr as [-> ->]. ring.
  - by destruct (Hfin s').
  - done.
  - destruct Hr as (-> & Hle & <-). rewrite inject_Z_mult, (pow2_split e E) by done. ring.
Qed.

(** Rounding an exact [m * 2^e]: the result, unless it has overflowed, is
    within a relative [2^-53] of it, or within [2^-1075] when it falls
    below the normal range; it is exact when nothing is shifted out. *)
Lemma binary_round_aux_error (s : bool) (m : positive) (e : Z) :
  let r := binary_round_aux prec emax s (Z.pos m) e loc_Exact in
  let V := inject_Z (Z.pos m) * pow2 e in
  (∀ s', r ≠ S754_infinity s') →
  ∃ W, SF2Q r == sign_of s * W ∧ 0 <= W
     ∧ (Qabs (W - V) <= unit_roundoff * V
        ∨ ((e < -1074)%Z ∧ Qabs (W - V) <= half_least)).
Proof.
  intros r V Hfin.
  destruct (binary_round_aux_exact s m e) as (M & Hrep & Hexact & Hround).
  fold r in Hrep. set (f := fexp prec emax (Z.pos (digits2_pos m) + e)) in *.
  pose proof (represents_value _ _ _ _ Hrep Hfin) as Hval.
  assert (HV : 0 < V).
  { unfold V. apply Qmult_lt_0_compat; [|apply pow2_pos]. by apply inject_Z_pos. }
  assert (HM : (0 ≤ M)%Z).
  { destruct (Z_le_gt_dec f e) as [Hle|Hgt].
    - rewrite Hexact by done. lia.
    - destruct (Hround ltac:(lia)) as ((Hlo & _) & _).
      assert (0 ≤ Z.pos m / 2 ^ (f - e))%Z; [|lia].
      apply Z.div_pos; [lia|apply Z.pow_pos_nonneg; lia]. }
  exists (inject_Z M * pow2 (Z.max e f)). split; [exact Hval|]. split.
  { apply Qmult_le_0_compat; [by apply inject_Z_nonneg|]. apply Qlt_le_weak, pow2_pos. }
  destruct (Z_le_gt_dec f e) as [Hle|Hgt].
  - left. rewrite Hexact by done. replace (Z.max e f) with e by lia. fold V.
    setoid_replace (V - V) with 0 using relation Qeq by ring. simpl.
    apply Qmult_le_0_compat; [|by apply Qlt_le_weak]. apply Qlt_le_weak, pow2_pos.
  - destruct (Hround ltac:(lia)) as (_ & _ & Herr).
    replace (Z.max e f) with f by lia.
    set (K := (2 ^ (f - e))%Z) in *.
    assert (HK : (0 < K)%Z) by (apply Z.pow_pos_nonneg; lia).
    assert (Hdiff : inject_Z M * pow2 f - V == inject_Z (M * K - Z.pos m) * pow2 e).
    { unfold V. rewrite (pow2_split f e) by lia. fold K.
      unfold Zminus. rewrite inject_Z_plus, inject_Z_mult, inject_Z_opp. ring. }
    assert (Habs : Qabs (inject_Z M * pow2 f - V)
                   == inject_Z (Z.abs (M * K - Z.pos m)) * pow2 e).
    { rewrite Hdiff, Qabs_Qmult. rewrite (Qabs_pos (pow2 e)) by apply Qlt_le_weak, pow2_pos.
      apply Qmult_comp; [|reflexivity].
      unfold inject_Z. by rewrite <- Zabs_Qabs. }
    pose proof (digits2_bounds m) as Hd. set (d := Z.pos (digits2_pos m)) in *.
    assert (Hf : f = Z.max (d + e - 53) (-1074)) by apply fexp_eq.
    destruct (Z_le_gt_dec (-1074) (d + e - 53)) as [Hnormal|Hsub].
    + left. rewrite Habs. unfold V, unit_roundoff.
      assert (HK' : (K * 2 ^ 52 = 2 ^ (d - 1))%Z).
      { unfold K. rewrite <- Z.pow_add_r by lia. f_equal. lia. }
      assert (Hint : (Z.abs (M * K - Z.pos m) * 2 ^ 53 ≤ Z.pos m)%Z).
      { change (2 ^ 53)%Z with (2 * 2 ^ 52)%Z. nia. }
      rewrite Zle_Qle in Hint. rewrite inject_Z_mult in Hint.
      rewrite pow2_Z in Hint by lia.
      assert (H53 : pow2 53 * pow2 (-53) == 1) by (rewrite <- pow2_add; reflexivity).
      pose proof (pow2_pos e). pose proof (pow2_pos (-53)).
      set (a := inject_Z (Z.abs (M * K - Z.pos m))) in *.
      set (b := inject_Z (Z.pos m)) in *.
      apply Qle_trans with (a * pow2 53 * pow2 (-53) * pow2 e).
      * apply Qle_lteq. right.
        setoid_replace (a * pow2 53 * pow2 (-53) * pow2 e)
          with (a * pow2 e * (pow2 53 * pow2 (-53))) using relation Qeq by ring.
        rewrite H53. ring.
      * setoid_replace (pow2 (-53) * (b * pow2 e)) with (b * pow2 (-53) * pow2 e) using relation Qeq by ring.
        apply Qmult_le_compat_r; [|by apply Qlt_le_weak].
        apply Qmult_le_compat_r; [done|by apply Qlt_le_weak].
    + right. split; [lia|]. rewrite Habs. unfold half_least.
      assert (Hint : (2 * Z.abs (M * K - Z.pos m) ≤ K)%Z) by done.
      rewrite Zle_Qle in Hint. rewrite inject_Z_mult in Hint.
      assert (HKe : inject_Z K * pow2 e == pow2 (-1074)).
      { unfold K. rewrite pow2_Z, <- pow2_add by lia. by replace (f - e + e)%Z with (-1074)%Z by lia. }
      assert (Hhalf : pow2 (-1074) == 2 * pow2 (-1075)).
      { replace (-1074)%Z with (1 + -1075)%Z by lia. rewrite pow2_add. reflexivity. }
      pose proof (pow2_pos e).
      set (a := inject_Z (Z.abs (M * K - Z.pos m))) in *.
      assert (H2 : inject_Z 2 * a * pow2 e <= 2 * pow2 (-1075)).
      { rewrite <- Hhalf, <- HKe. apply Qmult_le_compat_r; [done|by apply Qlt_le_weak]. }
      change (inject_Z 2) with 2 in H2. lra.
Qed.

End Values.

Section Operations.
Local Open Scope Q_scope.

Lemma iter_xO (m d : positive) : Z.pos (Pos.iter xO m d) = (Z.pos m * 2 ^ Z.pos d)%Z.
Proof.
  induction d as [|d IH] using Pos.peano_ind.
  - simpl. lia.
  - rewrite Pos.iter_succ, Pos2Z.inj_succ, Z.pow_succ_r by lia.
    rewrite Pos2Z.inj_xO, IH. lia.
Qed.

Lemma shl_align_value (m : positive) (e e' : Z) :
  (e' ≤ e)%Z →
  snd (shl_align m e e') = e'
  ∧ Z.pos (fst (shl_align m e e')) = (Z.pos m * 2 ^ (e - e'))%Z.
Proof.
  intros Hle. unfold shl_align.
  destruct (e' - e)%Z as [|d|d] eqn:E; simpl; try lia.
  - split; [lia|]. replace (e - e')%Z with 0%Z by lia. lia.
  - split; [done|]. rewrite iter_xO. f_equal. f_equal. lia.
Qed.

Lemma shl_align_same (m : positive) (e e' : Z) :
  (e ≤ e')%Z → shl_align m e e' = (m, e).
Proof. intros Hle. unfold shl_align. destruct (e' - e)%Z as [|d|d] eqn:E; try done. lia. Qed.

Lemma sign_of_xorb (a b : bool) : sign_of (xorb a b) == sign_of a * sign_of b.
Proof. by destruct a, b. Qed.

Lemma Qabs_sign_diff (s : bool) (W V : Q) :
  Qabs (sign_of s * W - sign_of s * V) == Qabs (W - V).
Proof.
  setoid_replace (sign_of s * W - sign_of s * V) with (sign_of s * (W - V))
    using relation Qeq by ring.
  apply Qabs_sign_of.
Qed.

Lemma Qabs_sign_nonneg (s : bool) (V : Q) : 0 <= V → Qabs (sign_of s * V) == V.
Proof. intros HV. rewrite Qabs_sign_of. by apply Qabs_pos. Qed.

(** [binary_round] on an exponent of the format: a relative error. *)
Lemma binary_round_error (s : bool) (m : positive) (e : Z) :
  (-1074 ≤ e)%Z →
  let r := binary_round prec emax s m e in
  let V := inject_Z (Z.pos m) * pow2 e in
  (∀ s', r ≠ S754_infinity s') →
  SFfinite r ∧ Qabs (SF2Q r - sign_of s * V) <= unit_roundoff * V.
Proof.
  intros He r V Hfin. unfold r, binary_round in *.
  set (f := fexp prec emax (Z.pos (digits2_pos m) + e)) in *.
  assert (HV : ∀ mz ez,
            inject_Z (Z.pos mz) * pow2 ez == V → (-1074 ≤ ez)%Z →
            let r := binary_round_aux prec emax s (Z.pos mz) ez loc_Exact in
            (∀ s', r ≠ S754_infinity s') →
            SFfinite r ∧ Qabs (SF2Q r - sign_of s * V) <= unit_roundoff * V).
  { intros mz ez Hval Hez r' Hfin'.
    destruct (binary_round_aux_error s mz ez Hfin') as (W & HW & HW0 & Herr).
    fold r' in HW. split.
    - destruct (binary_round_aux_exact s mz ez) as (M & Hrep & _).
      unfold r' in *.
      destruct (binary_round_aux prec emax s (Z.pos mz) ez loc_Exact) as [s'|s'| |s' m' e'];
        try done. by destruct (Hfin' s').
    - rewrite HW, Qabs_sign_diff. rewrite <- Hval.
      destruct Herr as [Herr|[Hlt _]]; [done|lia]. }
  destruct (Z_lt_le_dec f e) as [Hlt|Hle].
  - destruct (shl_align_value m e f ltac:(lia)) as [Hsnd Hfst].
    destruct (shl_align m e f) as [mz ez]. simpl in Hsnd, Hfst. subst ez.
    apply HV; [|unfold f; rewrite fexp_eq; lia|done].
    unfold V. rewrite Hfst, inject_Z_mult, (pow2_split e f) by lia. ring.
  - rewrite (shl_align_same m e f) in * by done.
    apply HV; [reflexivity|done|done].
Qed.

Lemma binary_normalize_error (S e : Z) :
  (-1074 ≤ e)%Z →
  let r := binary_normalize prec emax S e false in
  let V := inject_Z S * pow2 e in
  (∀ s', r ≠ S754_infinity s') →
  SFfinite r ∧ Qabs (SF2Q r - V) <= unit_roundoff * Qabs V.
Proof.
  intros He r V Hfin. unfold r, binary_normalize in *.
  pose proof (pow2_pos e) as Hp.
  destruct S as [|p|p].
  - split; [done|]. assert (H0 : inject_Z 0 * pow2 e == 0) by ring.
    unfold V. rewrite H0. simpl SF2Q.
    change (Qabs (0 - 0)) with 0. change (Qabs 0) with 0. lra.
  - destruct (binary_round_error false p e He Hfin) as [Hf Herr]. split; [done|].
    unfold V. rewrite (Qabs_pos (inject_Z (Z.pos p) * pow2 e)).
    + unfold sign_of in Herr.
      setoid_replace (inject_Z (Z.pos p) * pow2 e) with (1 * (inject_Z (Z.pos p) * pow2 e))
        using relation Qeq at 1 by ring.
      exact Herr.
    + apply Qmult_le_0_compat; [by apply inject_Z_nonneg|by apply Qlt_le_weak].
  - destruct (binary_round_error true p e He Hfin) as [Hf Herr]. split; [done|].
    unfold V.
    assert (Hneg : inject_Z (Z.neg p) * pow2 e == -1 * (inject_Z (Z.pos p) * pow2 e)).
    { change (Z.neg p) with (- Z.pos p)%Z. rewrite inject_Z_opp. ring. }
    rewrite Hneg. change (-1) with (sign_of true).
    rewrite (Qabs_sign_nonneg true); [exact Herr|].
    apply Qmult_le_0_compat; [by apply inject_Z_nonneg|by apply Qlt_le_weak].
Qed.

End Operations.

Section Spec_operations.
Local Open Scope Q_scope.

Lemma valid_exponent (s : bool) (m : positive) (e : Z) :
  valid_binary (S754_finite s m e) = true → (-1074 ≤ e)%Z.
Proof.
  simpl. unfold bounded, canonical_mantissa. intros Hv.
  apply andb_prop in Hv as [Hc _]. apply Z.eqb_eq in Hc. rewrite fexp_eq in Hc. lia.
Qed.

Lemma SFfinite_not_infinity (r : spec_float) : SFfinite r → ∀ s, r ≠ S754_infinity s.
Proof. intros Hr s ->. done. Qed.

Lemma inject_Z_cond_Zopp (s : bool) (z : Z) :
  inject_Z (cond_Zopp s z) == sign_of s * inject_Z z.
Proof. destruct s; simpl; [rewrite inject_Z_opp|]; ring. Qed.

Lemma aligned_value (s : bool) (m : positive) (e e' : Z) :
  (e' ≤ e)%Z →
  inject_Z (cond_Zopp s (Z.pos (fst (shl_align m e e')))) * pow2 e'
  == SF2Q (S754_finite s m e).
Proof.
  intros Hle. destruct (shl_align_value m e e' Hle) as [_ ->].
  rewrite inject_Z_cond_Zopp, inject_Z_mult. simpl. rewrite (pow2_split e e') by done. ring.
Qed.

Lemma Qabs_zero_le (c : Q) : 0 <= c → Qabs (0 - 0) <= c * Qabs 0.
Proof. intros Hc. change (Qabs (0 - 0)) with 0. change (Qabs 0) with 0. lra. Qed.

Lemma unit_roundoff_pos : 0 < unit_roundoff.
Proof. apply pow2_pos. Qed.

Lemma half_least_pos : 0 < half_least.
Proof. apply pow2_pos. Qed.

Lemma Qabs_exact (c V : Q) : 0 <= c → Qabs (V - V) <= c * Qabs V.
Proof.
  intros Hc. setoid_replace (V - V) with 0 using relation Qeq by ring.
  change (Qabs 0) with 0. apply Qmult_le_0_compat; [done|apply Qabs_nonneg].
Qed.

(** A sum that has not overflowed is the exact sum up to a relative
    [2^-53], and its operands are numbers. *)
Lemma SFadd_error (x y : spec_float) :
  valid_binary x = true → valid_binary y = true → SFfinite (SF64add x y) →
  SFfinite x ∧ SFfinite y
  ∧ Qabs (SF2Q (SF64add x y) - (SF2Q x + SF2Q y)) <= unit_roundoff * Qabs (SF2Q x + SF2Q y).
Proof.
  intros Hx Hy Hr. pose proof (Qlt_le_weak _ _ unit_roundoff_pos) as Hu.
  destruct x as [sx|sx| |sx mx ex], y as [sy|sy| |sy my ey];
    try (by destruct sx, sy); try done.
  - split; [done|]. split; [done|]. simpl SF64add. unfold SF64add, SFadd.
    setoid_replace (SF2Q (S754_zero sx) + SF2Q (S754_finite sy my ey))
      with (SF2Q (S754_finite sy my ey)) using relation Qeq by (simpl; ring).
    by apply Qabs_exact.
  - split; [done|]. split; [done|]. unfold SF64add, SFadd.
    setoid_replace (SF2Q (S754_finite sx mx ex) + SF2Q (S754_zero sy))
      with (SF2Q (S754_finite sx mx ex)) using relation Qeq by (simpl; ring).
    by apply Qabs_exact.
  - split; [done|]. split; [done|]. unfold SF64add, SFadd in *.
    set (ez := Z.min ex ey) in *.
    pose proof (valid_exponent _ _ _ Hx). pose proof (valid_exponent _ _ _ Hy).
    destruct (binary_normalize_error
                (cond_Zopp sx (Z.pos (fst (shl_align mx ex ez)))
                 + cond_Zopp sy (Z.pos (fst (shl_align my ey ez)))) ez)
      as [_ Herr]; [lia|by apply SFfinite_not_infinity|].
    rewrite inject_Z_plus, Qmult_plus_distr_l in Herr.
    rewrite !aligned_value in Herr by lia. exact Herr.
Qed.

Lemma SFsub_error (x y : spec_float) :
  valid_binary x = true → valid_binary y = true → SFfinite (SF64sub x y) →
  SFfinite x ∧ SFfinite y
  ∧ Qabs (SF2Q (SF64sub x y) - (SF2Q x - SF2Q y)) <= unit_roundoff * Qabs (SF2Q x - SF2Q y).
Proof.
  intros Hx Hy Hr. pose proof (Qlt_le_weak _ _ unit_roundoff_pos) as Hu.
  destruct x as [sx|sx| |sx mx ex], y as [sy|sy| |sy my ey];
    try (by destruct sx, sy); try done.
  - split; [done|]. split; [done|]. unfold SF64sub, SFsub.
    setoid_replace (SF2Q (S754_zero sx) - SF2Q (S754_finite sy my ey))
      with (SF2Q (S754_finite (negb sy) my ey)) using relation Qeq
      by (destruct sy; simpl; ring).
    by apply Qabs_exact.
  - split; [done|]. split; [done|]. unfold SF64sub, SFsub.
    setoid_replace (SF2Q (S754_finite sx mx ex) - SF2Q (S754_zero sy))
      with (SF2Q (S754_finite sx mx ex)) using relation Qeq by (simpl; ring).
    by apply Qabs_exact.
  - split; [done|]. split; [done|]. unfold SF64sub, SFsub in *.
    set (ez := Z.min ex ey) in *.
    pose proof (valid_exponent _ _ _ Hx). pose proof (valid_exponent _ _ _ Hy).
    destruct (binary_normalize_error
                (cond_Zopp sx (Z.pos (fst (shl_align mx ex ez)))
                 - cond_Zopp sy (Z.pos (fst (shl_align my ey ez)))) ez)
      as [_ Herr]; [lia|by apply SFfinite_not_infinity|].
    unfold Zminus in Herr.
    rewrite inject_Z_plus, inject_Z_opp, Qmult_plus_distr_l in Herr.
    setoid_replace (- inject_Z (cond_Zopp sy (Z.pos (fst (shl_align my ey ez)))) * pow2 ez)
      with (- (inject_Z (cond_Zopp sy (Z.pos (fst (shl_align my ey ez)))) * pow2 ez))
      using relation Qeq in Herr by ring.
    rewrite !aligned_value in Herr by lia. exact Herr.
Qed.

(** A product that has not overflowed is the exact product up to a
    relative [2^-53], or up to [2^-1075] below the normal range. *)
Lemma SFmul_error (x y : spec_float) :
  SFfinite (SF64mul x y) →
  SFfinite x ∧ SFfinite y
  ∧ Qabs (SF2Q (SF64mul x y) - SF2Q x * SF2Q y)
    <= unit_roundoff * Qabs (SF2Q x * SF2Q y) + half_least.
Proof.
  intros Hr. pose proof (Qlt_le_weak _ _ unit_roundoff_pos) as Hu.
  pose proof (Qlt_le_weak _ _ half_least_pos) as Hh.
  assert (Hzero : ∀ a b : Q, a * b == 0 →
            Qabs (0 - a * b) <= unit_roundoff * Qabs (a * b) + half_least).
  { intros a b ->. change (Qabs (0 - 0)) with 0. change (Qabs 0) with 0. lra. }
  destruct x as [sx|sx| |sx mx ex], y as [sy|sy| |sy my ey]; try done;
    try (split; [done|]; split; [done|]; apply Hzero; simpl; ring).
  split; [done|]. split; [done|]. unfold SF64mul, SFmul in *.
    destruct (binary_round_aux_error (xorb sx sy) (mx * my) (ex + ey))
      as (W & HW & HW0 & Herr); [by apply SFfinite_not_infinity|].
    set (V := inject_Z (Z.pos (mx * my)) * pow2 (ex + ey)) in *.
    assert (HV0 : 0 <= V).
    { apply Qmult_le_0_compat; [by apply inject_Z_nonneg|apply Qlt_le_weak, pow2_pos]. }
    assert (Hprod : SF2Q (S754_finite sx mx ex) * SF2Q (S754_finite sy my ey)
                    == sign_of (xorb sx sy) * V).
    { unfold V. simpl. rewrite Pos2Z.inj_mul, inject_Z_mult, pow2_add, sign_of_xorb. ring. }
    rewrite HW, Hprod, Qabs_sign_diff, Qabs_sign_nonneg by done.
    pose proof (Qmult_le_0_compat _ _ Hu HV0).
    destruct Herr as [Herr|[_ Herr]]; lra.
Qed.

End Spec_operations.

(** The same on primitive floats. *)

Section Float_operations.
Local Open Scope Q_scope.

Lemma is_finite_SFfinite (x : float) :
  PrimFloat.is_finite x = true ↔ SFfinite (Prim2SF x).
Proof.
  unfold PrimFloat.is_finite, PrimFloat.is_nan, PrimFloat.is_infinity.
  rewrite !FloatAxioms.eqb_spec, abs_spec.
  change (Prim2SF infinity) with (S754_infinity false).
  destruct (Prim2SF x) as [s|s| |s m e] eqn:E; simpl.
  - by destruct s.
  - by destruct s.
  - done.
  - unfold SFeqb. simpl. rewrite !Z.compare_refl, !Pos.compare_cont_refl.
    by destruct s.
Qed.

Lemma add_error (x y : float) :
  PrimFloat.is_finite (x + y)%float = true →
  PrimFloat.is_finite x = true ∧ PrimFloat.is_finite y = true
  ∧ Qabs (value (x + y)%float - (value x + value y))
    <= unit_roundoff * Qabs (value x + value y).
Proof.
  rewrite !is_finite_SFfinite. unfold value. rewrite add_spec.
  apply SFadd_error; apply Prim2SF_valid.
Qed.

Lemma sub_error (x y : float) :
  PrimFloat.is_finite (x - y)%float = true →
  PrimFloat.is_finite x = true ∧ PrimFloat.is_finite y = true
  ∧ Qabs (value (x - y)%float - (value x - value y))
    <= unit_roundoff * Qabs (value x - value y).
Proof.
  rewrite !is_finite_SFfinite. unfold value. rewrite sub_spec.
  apply SFsub_error; apply Prim2SF_valid.
Qed.

Lemma mul_error (x y : float) :
  PrimFloat.is_finite (x * y)%float = true →
  PrimFloat.is_finite x = true ∧ PrimFloat.is_finite y = true
  ∧ Qabs (value (x * y)%float - value x * value y)
    <= unit_roundoff * Qabs (value x * value y) + half_least.
Proof.
  rewrite !is_finite_SFfinite. unfold value. rewrite mul_spec.
  apply SFmul_error.
Qed.

End Float_operations.

Section Monotone.

Lemma rounds_to_le (K m M N : Z) : 0 < K → rounds_to K m M → m ≤ N * K → M ≤ N.
Proof.
  intros HK ((_ & Hhi) & Hexact & _) Hle.
  pose proof (Z.div_mod m K ltac:(lia)) as Hm.
  pose proof (Z.mod_pos_bound m K HK) as Hr.
  destruct (Z.eq_dec (m mod K) 0) as [E|E]; [rewrite (Hexact E)|]; nia.
Qed.

Lemma rounds_to_nonneg (K m M : Z) : 0 < K → 0 ≤ m → rounds_to K m M → 0 ≤ M.
Proof.
  intros HK Hm ((Hlo & _) & _). assert (0 ≤ m / K) by (apply Z.div_pos; lia). lia.
Qed.

Lemma pow2_le_digits (a b : Z) : 0 ≤ b → 2 ^ (a - 1) < 2 ^ b → a ≤ b.
Proof.
  intros Hb Hlt. destruct (Z_le_gt_dec a b); [done|].
  assert (2 ^ b ≤ 2 ^ (a - 1)) by (apply Z.pow_le_mono_r; lia). lia.
Qed.

Lemma valid_canonical (s : bool) (m : positive) (e : Z) :
  valid_binary (S754_finite s m e) = true →
  e = Z.max (Z.pos (digits2_pos m) + e - 53) (-1074).
Proof.
  simpl. unfold bounded, canonical_mantissa. intros Hv.
  apply andb_prop in Hv as [Hc _]. apply Z.eqb_eq in Hc. rewrite fexp_eq in Hc. lia.
Qed.

Local Open Scope Q_scope.

Lemma pow2_le (a b : Z) : (a ≤ b)%Z → pow2 a <= pow2 b.
Proof. intros Hab. apply Qpower_le_compat_l; [done|]. discriminate. Qed.

Lemma pow2_0 : pow2 0 == 1.
Proof. reflexivity. Qed.

Lemma pow2_opp (e : Z) : pow2 e * pow2 (- e) == 1.
Proof. rewrite <- pow2_add. replace (e + - e)%Z with 0%Z by lia. reflexivity. Qed.

(** [m * 2^e <= 1] on integers. *)
Lemma le_one_Z (m : positive) (e : Z) :
  inject_Z (Z.pos m) * pow2 e <= 1 → (e ≤ 0)%Z ∧ (Z.pos m ≤ 2 ^ (- e))%Z.
Proof.
  intros Hle.
  assert (He : (e ≤ 0)%Z).
  { destruct (Z_le_gt_dec e 0) as [|Hgt]; [done|]. exfalso.
    assert (H1 : pow2 1 <= pow2 e) by (apply pow2_le; lia).
    assert (H2 : 1 <= inject_Z (Z.pos m)).
    { change 1 with (inject_Z 1). rewrite <- Zle_Qle. lia. }
    assert (H3 : pow2 1 == 2) by reflexivity.
    assert (H4 : inject_Z (Z.pos m) * pow2 1 <= inject_Z (Z.pos m) * pow2 e).
    { apply Qmult_le_l; [|done]. by apply inject_Z_pos. }
    rewrite H3 in H4. lra. }
  split; [done|].
  rewrite Zle_Qle, pow2_Z by lia.
  pose proof (pow2_opp e) as Hopp. pose proof (pow2_pos (- e)) as Hp.
  apply (Qmult_le_compat_r _ _ (pow2 (- e))) in Hle; [|by apply Qlt_le_weak].
  setoid_replace (inject_Z (Z.pos m) * pow2 e * pow2 (- e))
    with (inject_Z (Z.pos m) * (pow2 e * pow2 (- e))) using relation Qeq in Hle by ring.
  rewrite Hopp in Hle. lra.
Qed.

(** A product by a factor of magnitude at most 1 does not exceed, in
    magnitude, the other factor: rounding does not step over a float. *)
Lemma SFmul_contract (x y : spec_float) :
  valid_binary x = true → SFfinite (SF64mul x y) → Qabs (SF2Q y) <= 1 →
  Qabs (SF2Q (SF64mul x y)) <= Qabs (SF2Q x).
Proof.
  intros Hx Hr Hy.
  destruct x as [sx|sx| |sx mx ex], y as [sy|sy| |sy my ey]; try done;
    try exact (Qabs_nonneg _).
  unfold SF64mul, SFmul in *.
  destruct (binary_round_aux_exact (xorb sx sy) (mx * my) (ex + ey))
    as (M & Hrep & Hexact & Hround).
  set (d := Z.pos (digits2_pos (mx * my))) in *.
  set (f := fexp prec emax (d + (ex + ey))) in *.
  rewrite (represents_value _ _ _ _ Hrep) by (by apply SFfinite_not_infinity).
  simpl SF2Q in *. rewrite Qabs_sign_of in Hy.
  rewrite (Qabs_pos (inject_Z (Z.pos my) * pow2 ey)) in Hy
    by (apply Qmult_le_0_compat; [by apply inject_Z_nonneg|apply Qlt_le_weak, pow2_pos]).
  rewrite !Qabs_sign_of.
  pose proof (pow2_pos ex) as Hpx. pose proof (pow2_pos ey) as Hpy.
  assert (Hmx : 0 < inject_Z (Z.pos mx)) by (by apply inject_Z_pos).
  rewrite (Qabs_pos (inject_Z (Z.pos mx) * pow2 ex))
    by (apply Qmult_le_0_compat; by apply Qlt_le_weak).
  destruct (Z_le_gt_dec f (ex + ey)) as [Hle|Hgt].
  - rewrite Hexact by done. replace (Z.max (ex + ey) f) with (ex + ey)%Z by lia.
    assert (H0 : 0 <= inject_Z (Z.pos (mx * my)) * pow2 (ex + ey)).
    { apply Qmult_le_0_compat; [by apply inject_Z_nonneg|apply Qlt_le_weak, pow2_pos]. }
    rewrite (Qabs_pos _ H0).
    rewrite Pos2Z.inj_mul, inject_Z_mult, pow2_add.
    setoid_replace (inject_Z (Z.pos mx) * inject_Z (Z.pos my) * (pow2 ex * pow2 ey))
      with (inject_Z (Z.pos mx) * pow2 ex * (inject_Z (Z.pos my) * pow2 ey))
      using relation Qeq by ring.
    setoid_replace (inject_Z (Z.pos mx) * pow2 ex)
      with (inject_Z (Z.pos mx) * pow2 ex * 1) using relation Qeq at 2 by ring.
    apply Qmult_le_l; [by apply Qmult_lt_0_compat|done].
  - specialize (Hround ltac:(lia)).
    replace (Z.max (ex + ey) f) with f by lia.
    destruct (le_one_Z my ey Hy) as [Hey Hmy].
    pose proof (digits2_bounds mx) as Hdx. pose proof (digits2_bounds (mx * my)) as Hd.
    fold d in Hd. set (dx := Z.pos (digits2_pos mx)) in *.
    pose proof (valid_canonical _ _ _ Hx) as Hcan. fold dx in Hcan.
    assert (Hf : f = Z.max (d + (ex + ey) - 53) (-1074)) by apply fexp_eq.
    assert (Hdd : (d + ey ≤ dx)%Z).
    { assert (d ≤ dx - ey)%Z; [|lia]. apply pow2_le_digits; [lia|].
      assert (Hsplit : (2 ^ (dx - ey) = 2 ^ dx * 2 ^ (- ey))%Z).
      { rewrite <- Z.pow_add_r by lia. f_equal; lia. }
      assert (0 < 2 ^ (- ey))%Z by (apply Z.pow_pos_nonneg; lia).
      rewrite Hsplit. rewrite Pos2Z.inj_mul in Hd. nia. }
    assert (Hfx : (f ≤ ex)%Z) by lia.
    set (K := (2 ^ (f - (ex + ey)))%Z) in *.
    assert (HK : (0 < K)%Z) by (apply Z.pow_pos_nonneg; lia).
    assert (HM : (M ≤ Z.pos mx * 2 ^ (ex - f))%Z).
    { apply (rounds_to_le K (Z.pos (mx * my))); [done|done|].
      unfold K. rewrite <- Z.mul_assoc, <- Z.pow_add_r by lia.
      replace (ex - f + (f - (ex + ey)))%Z with (- ey)%Z by lia.
      rewrite Pos2Z.inj_mul. nia. }
    assert (HM0 : (0 ≤ M)%Z) by (apply (rounds_to_nonneg K (Z.pos (mx * my))); done || lia).
    rewrite (Qabs_pos (inject_Z M * pow2 f))
      by (apply Qmult_le_0_compat; [by apply inject_Z_nonneg|apply Qlt_le_weak, pow2_pos]).
    rewrite (pow2_split ex f) by done.
    rewrite Qmult_assoc, <- inject_Z_mult.
    apply Qmult_le_compat_r; [|apply Qlt_le_weak, pow2_pos].
    by rewrite <- Zle_Qle.
Qed.

(** The sign of a product is the product of the signs. *)
Lemma SFmul_sign (x y : spec_float) :
  SFfinite (SF64mul x y) →
  (0 <= SF2Q x * SF2Q y → 0 <= SF2Q (SF64mul x y))
  ∧ (SF2Q x * SF2Q y <= 0 → SF2Q (SF64mul x y) <= 0).
Proof.
  intros Hr.
  destruct x as [sx|sx| |sx mx ex], y as [sy|sy| |sy my ey]; try done;
    try (simpl; split; intros _; apply Qle_refl).
  unfold SF64mul, SFmul in *.
  destruct (binary_round_aux_error (xorb sx sy) (mx * my) (ex + ey))
    as (W & HW & HW0 & _); [by apply SFfinite_not_infinity|].
  rewrite HW. simpl SF2Q.
  assert (Hx : 0 < inject_Z (Z.pos mx) * pow2 ex)
    by (apply Qmult_lt_0_compat; [by apply inject_Z_pos|apply pow2_pos]).
  assert (Hy : 0 < inject_Z (Z.pos my) * pow2 ey)
    by (apply Qmult_lt_0_compat; [by apply inject_Z_pos|apply pow2_pos]).
  pose proof (Qmult_lt_0_compat _ _ Hx Hy) as Hxy.
  set (X := inject_Z (Z.pos mx) * pow2 ex) in *.
  set (Y := inject_Z (Z.pos my) * pow2 ey) in *.
  destruct sx, sy; unfold sign_of; simpl xorb; cbv iota; split; intros H; nra.
Qed.

End Monotone.

Section Division.

Lemma new_location_0 (n : Z) : new_location n 0 = loc_Exact.
Proof. unfold new_location. by destruct (Z.even n). Qed.

(** The quotient and its location, as the division computes them. *)
Lemma SFdiv_core_spec (mx my : positive) (ex ey : Z) :
  ∃ q e' l rem,
    SFdiv_core_binary prec emax (Z.pos mx) ex (Z.pos my) ey = (q, e', l)
    ∧ e' = Z.min (fexp prec emax (Z.pos (digits2_pos mx) + ex
                                  - (Z.pos (digits2_pos my) + ey))) (ex - ey)
    ∧ 0 ≤ q ∧ 0 ≤ rem < Z.pos my
    ∧ Z.pos mx * 2 ^ (ex - ey - e') = Z.pos my * q + rem
    ∧ (rem = 0 → l = loc_Exact).
Proof.
  unfold SFdiv_core_binary. rewrite !Zdigits2_pos.
  set (e' := Z.min _ _).
  set (s := ex - ey - e').
  assert (Hs : 0 ≤ s) by (unfold s, e'; lia).
  set (m' := match s with Z.pos _ => Z.shiftl (Z.pos mx) s | 0 => Z.pos mx | Z.neg _ => 0 end).
  assert (Hm' : m' = Z.pos mx * 2 ^ s).
  { unfold m'. destruct s as [|p|p]; [lia| |lia]. by rewrite Z.shiftl_mul_pow2. }
  pose proof (Z_div_mod m' (Z.pos my) ltac:(lia)) as Hdiv.
  destruct (Z.div_eucl m' (Z.pos my)) as [q rem]. destruct Hdiv as [Hdiv Hrem].
  exists q, e', (new_location (Z.pos my) rem), rem.
  split; [done|]. split; [done|].
  assert (0 < 2 ^ s) by (apply Z.pow_pos_nonneg; lia).
  split; [nia|]. split; [lia|]. split; [fold s; rewrite <- Hm'; exact Hdiv|].
  intros ->. apply new_location_0.
Qed.

Local Open Scope Q_scope.

Lemma pow2_lt_inv (a b : Z) : pow2 a < pow2 b → (a < b)%Z.
Proof. intros Hlt. by apply (Qpower_lt_compat_l_inv 2). Qed.

Lemma value_lower (m : positive) (e : Z) :
  pow2 (Z.pos (digits2_pos m) - 1 + e) <= inject_Z (Z.pos m) * pow2 e.
Proof.
  pose proof (digits2_bounds m) as [Hlo _]. rewrite pow2_add.
  apply Qmult_le_compat_r; [|apply Qlt_le_weak, pow2_pos].
  rewrite <- pow2_Z by lia. by rewrite <- Zle_Qle.
Qed.

Lemma value_upper (m : positive) (e : Z) :
  inject_Z (Z.pos m) * pow2 e < pow2 (Z.pos (digits2_pos m) + e).
Proof.
  pose proof (digits2_bounds m) as [_ Hhi]. rewrite pow2_add.
  apply Qmult_lt_compat_r; [apply pow2_pos|].
  rewrite <- pow2_Z by lia. by rewrite <- Zlt_Qlt.
Qed.

(** A quotient of a dividend that does not exceed the divisor, in
    magnitude, is at most 1 in magnitude. *)
Lemma SFdiv_le_one (sx sy : bool) (mx my : positive) (ex ey : Z) :
  let r := SF64div (S754_finite sx mx ex) (S754_finite sy my ey) in
  SFfinite r →
  inject_Z (Z.pos mx) * pow2 ex <= inject_Z (Z.pos my) * pow2 ey →
  ∃ W, SF2Q r == sign_of (xorb sx sy) * W ∧ 0 <= W <= 1.
Proof.
  intros r Hr Hle. unfold r, SF64div, SFdiv in *.
  destruct (SFdiv_core_spec mx my ex ey) as (q & e' & l & rem & Hcore & He' & Hq & Hrem & Hdiv & Hl).
  rewrite Hcore in *.
  destruct (binary_round_aux_located (xorb sx sy) q e' l Hq) as (M & Hrep & Hround).
  set (f := fexp prec emax (Zdigits2 q + e')) in *. set (E := Z.max e' f) in *.
  exists (inject_Z M * pow2 E).
  split; [apply (represents_value _ _ _ _ Hrep); by apply SFfinite_not_infinity|].
  set (d1 := Z.pos (digits2_pos mx)) in *. set (d2 := Z.pos (digits2_pos my)) in *.
  (* magnitudes *)
  assert (Hd : (d1 + ex ≤ d2 + ey)%Z).
  { assert (d1 - 1 + ex < d2 + ey)%Z; [|lia]. apply pow2_lt_inv.
    eapply Qle_lt_trans; [apply value_lower|].
    eapply Qle_lt_trans; [exact Hle|]. apply value_upper. }
  assert (He0 : (e' ≤ -53)%Z) by (rewrite He', fexp_eq; lia).
  (* the scaled dividend does not exceed the scaled divisor *)
  assert (Hm : (Z.pos mx * 2 ^ (ex - ey - e') ≤ Z.pos my * 2 ^ (- e'))%Z).
  { assert (Hs : (0 ≤ ex - ey - e')%Z) by lia.
    rewrite Zle_Qle, !inject_Z_mult, !pow2_Z by lia.
    replace (ex - ey - e')%Z with (ex + (- ey - e'))%Z by lia.
    replace (- e')%Z with (ey + (- ey - e'))%Z by lia.
    rewrite !pow2_add, !Qmult_assoc.
    apply Qmult_le_compat_r; [done|apply Qlt_le_weak, pow2_pos]. }
  assert (HN : (0 < 2 ^ (- e'))%Z) by (apply Z.pow_pos_nonneg; lia).
  assert (Hq1 : (q ≤ 2 ^ (- e'))%Z) by nia.
  assert (Hdq : (Zdigits2 q + e' ≤ 1)%Z).
  { destruct q as [|p|p]; [simpl; lia| |lia]. rewrite Zdigits2_pos.
    pose proof (digits2_bounds p) as [Hlo _].
    assert (Z.pos (digits2_pos p) ≤ - e' + 1)%Z; [|lia].
    apply pow2_le_digits; [lia|].
    rewrite Z.pow_add_r by lia. change (2 ^ 1)%Z with 2%Z. lia. }
  assert (HE : (E ≤ 0)%Z) by (unfold E, f; rewrite fexp_eq; lia).
  assert (HEe : (e' ≤ E)%Z) by (unfold E; lia).
  assert (Hb : (0 ≤ loc_bits l < 4)%Z) by (destruct l as [|[]]; simpl; lia).
  set (K := (2 ^ (E - e' + 2))%Z) in *.
  assert (HK : (0 < K)%Z) by (apply Z.pow_pos_nonneg; lia).
  assert (HNK : (2 ^ (- E) * K = 4 * 2 ^ (- e'))%Z).
  { unfold K. rewrite <- Z.pow_add_r by lia.
    replace (- E + (E - e' + 2))%Z with (- e' + 2)%Z by lia.
    rewrite Z.pow_add_r by lia. change (2 ^ 2)%Z with 4%Z. lia. }
  assert (HM : (M ≤ 2 ^ (- E))%Z).
  { apply (rounds_to_le K (4 * q + loc_bits l)); [done|done|].
    rewrite HNK. destruct (Z.eq_dec q (2 ^ (- e'))%Z) as [Eq|Neq].
    - assert (rem = 0)%Z by nia. rewrite (Hl H). simpl. lia.
    - lia. }
  assert (HM0 : (0 ≤ M)%Z) by (apply (rounds_to_nonneg K (4 * q + loc_bits l)); [done|lia|done]).
  split.
  - apply Qmult_le_0_compat; [by apply inject_Z_nonneg|apply Qlt_le_weak, pow2_pos].
  - rewrite <- (pow2_opp (- E)). replace (- - E)%Z with E by lia.
    apply Qmult_le_compat_r; [|apply Qlt_le_weak, pow2_pos].
    rewrite <- pow2_Z by lia. by rewrite <- Zle_Qle.
Qed.

End Division.

Section Division_sign.
Local Open Scope Q_scope.

(** The sign of a quotient of finite floats is the product of the signs. *)
Lemma SFdiv_sign (sx sy : bool) (mx my : positive) (ex ey : Z) :
  let r := SF64div (S754_finite sx mx ex) (S754_finite sy my ey) in
  SFfinite r → ∃ W, SF2Q r == sign_of (xorb sx sy) * W ∧ 0 <= W.
Proof.
  intros r Hr. unfold r, SF64div, SFdiv in *.
  destruct (SFdiv_core_spec mx my ex ey) as (q & e' & l & rem & Hcore & _ & Hq & _).
  rewrite Hcore in *.
  destruct (binary_round_aux_located (xorb sx sy) q e' l Hq) as (M & Hrep & Hround).
  eexists. split; [apply (represents_value _ _ _ _ Hrep); by apply SFfinite_not_infinity|].
  assert (Hb : (0 ≤ loc_bits l)%Z) by (destruct l as [|[]]; simpl; lia).
  apply Qmult_le_0_compat; [|apply Qlt_le_weak, pow2_pos].
  apply inject_Z_nonneg.
  eapply (rounds_to_nonneg _ (4 * q + loc_bits l)); [|lia|exact Hround].
  apply Z.pow_pos_nonneg; lia.
Qed.

End Division_sign.


Section Float_bounds.
Local Open Scope Q_scope.

Lemma unit_roundoff_eq : unit_roundoff = 1 # 9007199254740992.
Proof. reflexivity. Qed.

Lemma Qabs_bounds (x : Q) : - Qabs x <= x ∧ x <= Qabs x.
Proof. apply Qabs_Qle_condition. apply Qle_refl. Qed.

Lemma mul_contract (x y : float) :
  PrimFloat.is_finite (x * y)%float = true → Qabs (value y) <= 1 →
  Qabs (value (x * y)%float) <= Qabs (value x).
Proof.
  rewrite is_finite_SFfinite. unfold value. rewrite mul_spec.
  apply SFmul_contract. apply Prim2SF_valid.
Qed.

Lemma mul_sign (x y : float) :
  PrimFloat.is_finite (x * y)%float = true →
  (0 <= value x * value y → 0 <= value (x * y)%float)
  ∧ (value x * value y <= 0 → value (x * y)%float <= 0).
Proof.
  rewrite is_finite_SFfinite. unfold value. rewrite mul_spec. apply SFmul_sign.
Qed.

(** A rate as a fraction: [x / 100] keeps the sign of [x], is at most 1
    when [x <= 100] and at least -1 when [x >= -100]. *)
Lemma percent_fraction (x : float) :
  PrimFloat.is_finite (x / float_of_Z 100)%float = true →
  (0 <= value x → 0 <= value (x / float_of_Z 100)%float)
  ∧ (value x <= 100 → value (x / float_of_Z 100)%float <= 1)
  ∧ (-100 <= value x → -1 <= value (x / float_of_Z 100)%float).
Proof.
  rewrite is_finite_SFfinite. unfold value. rewrite div_spec.
  change (Prim2SF (float_of_Z 100)) with (S754_finite false 7036874417766400 (-46)).
  destruct (Prim2SF x) as [sx|sx| |sx mx ex] eqn:E; try done.
  - intros Hr.
    destruct (SFdiv_sign sx false mx 7036874417766400 ex (-46) Hr) as (W & HW & HW0).
    assert (Hone : inject_Z (Z.pos mx) * pow2 ex <= 100 →
              ∃ W', SF2Q (SF64div (S754_finite sx mx ex)
                            (S754_finite false 7036874417766400 (-46)))
                    == sign_of (xorb sx false) * W' ∧ 0 <= W' <= 1).
    { intros Hle. apply SFdiv_le_one; [done|].
      assert (H100 : inject_Z 7036874417766400 * pow2 (-46) == 100) by reflexivity.
      by rewrite H100. }
    assert (HV0 : 0 < inject_Z (Z.pos mx) * pow2 ex)
      by (apply Qmult_lt_0_compat; [by apply inject_Z_pos|apply pow2_pos]).
    change (SF2Q (S754_finite sx mx ex)) with (sign_of sx * (inject_Z (Z.pos mx) * pow2 ex)).
    rewrite HW.
    set (V := inject_Z (Z.pos mx) * pow2 ex) in *.
    destruct sx; unfold sign_of in *; simpl xorb in *; cbv iota in *.
    + split; [intros; lra|]. split; [intros; lra|]. intros Hlo.
      destruct (Hone ltac:(lra)) as (W' & HW' & HW'1). rewrite HW in HW'. lra.
    + split; [intros; lra|]. split; [|intros; lra]. intros Hhi.
      destruct (Hone ltac:(lra)) as (W' & HW' & HW'1). rewrite HW in HW'. lra.
Qed.

(** Growth of a nonnegative amount at a rate of at least -100%. *)
Lemma grow_nonneg (x r : float) :
  PrimFloat.is_finite (x + x * r)%float = true →
  (PrimFloat.is_finite x = true → 0 <= value x) →
  (PrimFloat.is_finite r = true → -1 <= value r) →
  0 <= value (x + x * r)%float.
Proof.
  intros Hfin Hx Hr.
  destruct (add_error _ _ Hfin) as (Hfx & Hfm & Eadd).
  destruct (mul_error _ _ Hfm) as (_ & Hfr & _).
  specialize (Hx Hfx). specialize (Hr Hfr).
  assert (Hlow : - value x <= value (x * r)%float).
  { destruct (Qlt_le_dec (value r) 0) as [Hneg|Hpos].
    - pose proof (mul_contract x r Hfm) as Hc.
      rewrite (Qabs_neg (value r)), (Qabs_pos (value x)) in Hc by lra.
      specialize (Hc ltac:(lra)).
      pose proof (Qabs_bounds (value (x * r)%float)). lra.
    - destruct (mul_sign x r Hfm) as [Hs _].
      pose proof (Qmult_le_0_compat _ _ Hx Hpos). specialize (Hs ltac:(done)). lra. }
  set (s := value x + value (x * r)%float) in *.
  assert (Hs : 0 <= s) by (unfold s; lra).
  rewrite (Qabs_pos s Hs) in Eadd. apply Qabs_Qle_condition in Eadd.
  rewrite unit_roundoff_eq in Eadd. lra.
Qed.

(** A sum of nonnegative amounts, and a difference that takes away no
    more than there is. *)
Lemma add_nonneg (x y : float) :
  PrimFloat.is_finite (x + y)%float = true → 0 <= value x + value y →
  0 <= value (x + y)%float.
Proof.
  intros Hfin Hs. destruct (add_error _ _ Hfin) as (_ & _ & Eadd).
  rewrite (Qabs_pos _ Hs) in Eadd. apply Qabs_Qle_condition in Eadd.
  rewrite unit_roundoff_eq in Eadd. lra.
Qed.

Lemma sub_nonneg (x y : float) :
  PrimFloat.is_finite (x - y)%float = true → value y <= value x →
  0 <= value (x - y)%float.
Proof.
  intros Hfin Hs. destruct (sub_error _ _ Hfin) as (_ & _ & Esub).
  assert (H0 : 0 <= value x - value y) by lra.
  rewrite (Qabs_pos _ H0) in Esub. apply Qabs_Qle_condition in Esub.
  rewrite unit_roundoff_eq in Esub. lra.
Qed.

End Float_bounds.

Section Error_analysis.
Local Open Scope Q_scope.

Lemma Qabs_diff_le (x y : Q) : Qabs (x - y) <= Qabs x + Qabs y.
Proof.
  setoid_replace (x - y) with (x + - y) using relation Qeq by ring.
  eapply Qle_trans; [apply Qabs_triangle|]. rewrite Qabs_opp. apply Qle_refl.
Qed.

Lemma Qabs_near (x y e : Q) : Qabs (x - y) <= e → Qabs x <= Qabs y + e.
Proof.
  intros He.
  setoid_replace x with (y + (x - y)) using relation Qeq at 1 by ring.
  eapply Qle_trans; [apply Qabs_triangle|]. lra.
Qed.

Lemma Qabs_scale (x c : Q) : 0 <= c → Qabs (x * c) == Qabs x * c.
Proof. intros Hc. by rewrite Qabs_Qmult, (Qabs_pos c). Qed.

(** The 30% and 70% of the code, as rationals: they add up to [1 - 2^-54]. *)
Lemma value_30_percent : value (of_decimal 3 1) = 5404319552844595 # 18014398509481984.
Proof. vm_compute. reflexivity. Qed.

Lemma value_70_percent : value (of_decimal 7 1) = 6305039478318694 # 9007199254740992.
Proof. vm_compute. reflexivity. Qed.

Lemma conservation_error
    (tax_rate growth_rate high_wealth_premium redistribution_eff : float)
    (current_state : YearSnapshot float) :
  let l := year_body tax_rate growth_rate high_wealth_premium redistribution_eff
             current_state in
  PrimFloat.is_finite (ultra_wealthy_after_tax l) = true →
  PrimFloat.is_finite (middle_wealth_final l) = true →
  PrimFloat.is_finite (lower_wealth_final l) = true →
  Qabs (value (ultra_wealthy_after_tax l) + value (middle_wealth_final l)
        + value (lower_wealth_final l)
        + value (tax_collected l) * (1 - value redistribution_eff)
        - (value (ultra_wealthy_new l) + value (middle_wealth_new l)
           + value (lower_wealth_new l)))
  <= pow2 (-51)
     * (Qabs (value (ultra_wealthy_new l)) + Qabs (value (middle_wealth_new l))
        + Qabs (value (lower_wealth_new l)) + Qabs (value (tax_collected l))
        + Qabs (value (tax_collected l) * value redistribution_eff))
     + pow2 (-1073).
Proof.
  intros l Ha Hm Hl.
  destruct (sub_error (ultra_wealthy_new l) (tax_collected l) Ha) as (_ & _ & EA).
  destruct (add_error (middle_wealth_new l) (tax_to_redistribute l * of_decimal 3 1)%float Hm)
    as (_ & Hm3 & EM).
  destruct (add_error (lower_wealth_new l) (tax_to_redistribute l * of_decimal 7 1)%float Hl)
    as (_ & Hl7 & EL).
  destruct (mul_error (tax_to_redistribute l) (of_decimal 3 1) Hm3) as (Hr & _ & E3).
  destruct (mul_error (tax_to_redistribute l) (of_decimal 7 1) Hl7) as (_ & _ & E7).
  destruct (mul_error (tax_collected l) redistribution_eff Hr) as (_ & _ & ER).
  change (ultra_wealthy_new l - tax_collected l)%float with (ultra_wealthy_after_tax l) in EA.
  change (middle_wealth_new l + tax_to_redistribute l * of_decimal 3 1)%float
    with (middle_wealth_final l) in EM.
  change (lower_wealth_new l + tax_to_redistribute l * of_decimal 7 1)%float
    with (lower_wealth_final l) in EL.
  change (tax_collected l * redistribution_eff)%float with (tax_to_redistribute l) in ER.
  rewrite value_30_percent in E3. rewrite value_70_percent in E7.
  set (c3 := 5404319552844595 # 18014398509481984) in *.
  set (c7 := 6305039478318694 # 9007199254740992) in *.
  assert (H3 : 0 < c3) by reflexivity. assert (H7 : 0 < c7) by reflexivity.
  set (A := value (ultra_wealthy_after_tax l)) in *.
  set (M := value (middle_wealth_final l)) in *.
  set (L := value (lower_wealth_final l)) in *.
  set (T := value (tax_collected l)) in *.
  set (E := value redistribution_eff) in *.
  set (Nt := value (ultra_wealthy_new l)) in *.
  set (Nm := value (middle_wealth_new l)) in *.
  set (Nl := value (lower_wealth_new l)) in *.
  set (R := value (tax_to_redistribute l)) in *.
  set (a := value (tax_to_redistribute l * of_decimal 3 1)%float) in *.
  set (b := value (tax_to_redistribute l * of_decimal 7 1)%float) in *.
  clearbody A M L T E Nt Nm Nl R a b. clear Ha Hm Hl Hm3 Hl7 Hr l.
  rewrite (Qabs_scale R c3) in E3 by lra. rewrite (Qabs_scale R c7) in E7 by lra.
  pose proof (Qabs_diff_le Nt T) as T1.
  pose proof (Qabs_triangle Nm a) as T2.
  pose proof (Qabs_triangle Nl b) as T3.
  pose proof (Qabs_near _ _ _ E3) as N3. rewrite (Qabs_scale R c3) in N3 by lra.
  pose proof (Qabs_near _ _ _ E7) as N7. rewrite (Qabs_scale R c7) in N7 by lra.
  pose proof (Qabs_near _ _ _ ER) as NR.
  apply Qabs_Qle_condition in EA, EM, EL, E3, E7, ER.
  pose proof (Qabs_nonneg Nt). pose proof (Qabs_nonneg Nm). pose proof (Qabs_nonneg Nl).
  pose proof (Qabs_nonneg T). pose proof (Qabs_nonneg R). pose proof (Qabs_nonneg (T * E)).
  pose proof (Qabs_nonneg a). pose proof (Qabs_nonneg b).
  pose proof (Qabs_bounds R) as BR.
  set (TE := T * E) in *.
  setoid_replace (T * (1 - E)) with (T - TE) using relation Qeq by (unfold TE; ring).
  clearbody TE.
  generalize dependent (Qabs (Nt - T)). generalize dependent (Qabs (Nm + a)).
  generalize dependent (Qabs (Nl + b)). generalize dependent (Qabs Nt).
  generalize dependent (Qabs Nm). generalize dependent (Qabs Nl).
  generalize dependent (Qabs T). generalize dependent (Qabs R).
  generalize dependent (Qabs a). generalize dependent (Qabs b).
  generalize dependent (Qabs TE).
  intros. apply Qabs_Qle_condition.
  change (pow2 (-51)) with (1 # 2251799813685248).
  assert (Hη : pow2 (-1073) == 4 * half_least) by reflexivity. rewrite Hη. clear Hη.
  rewrite unit_roundoff_eq in *.
  pose proof half_least_pos.
  set (η := half_least) in *. clearbody η.
  unfold c3, c7 in *. clear H3 H7.
  split; lra.
Qed.

End Error_analysis.

Section Nonnegativity.
Local Open Scope Q_scope.
Variables tax_rate growth_rate high_wealth_premium redistribution_eff : float.
Hypothesis tax_rate_bounds : 0 <= value tax_rate <= 100.
Hypothesis efficiency_nonnegative : 0 <= value redistribution_eff.
Hypothesis growth_bound : -100 <= value growth_rate.
Hypothesis top_growth_bound : -100 <= value (growth_rate + high_wealth_premium)%float.

Local Abbreviation body := (year_body tax_rate growth_rate high_wealth_premium redistribution_eff).

Lemma Qabs_le_one (x : Q) : -1 <= x <= 1 → Qabs x <= 1.
Proof. intros Hx. by apply Qabs_Qle_condition. Qed.

(** The grown top wealth and the tax on it. *)
Lemma tax_collected_bounds (s : YearSnapshot float) :
  nonnegative_if_finite (ultra_wealthy s) →
  PrimFloat.is_finite (tax_collected (body s)) = true →
  0 <= value (tax_collected (body s))
  ∧ value (tax_collected (body s)) <= value (ultra_wealthy_new (body s)).
Proof.
  intros Htop Hfin.
  destruct (mul_error (ultra_wealthy_new (body s)) (tax_rate / float_of_Z 100)%float Hfin)
    as (Hnew & Hk & _).
  destruct (percent_fraction tax_rate Hk) as (Hk0 & Hk1 & _).
  destruct tax_rate_bounds as [Ht0 Ht1]. specialize (Hk0 Ht0). specialize (Hk1 Ht1).
  assert (Hn0 : 0 <= value (ultra_wealthy_new (body s))).
  { apply (grow_nonneg (ultra_wealthy s)
             ((growth_rate + high_wealth_premium) / float_of_Z 100)%float Hnew Htop).
    intros Hr. by apply percent_fraction. }
  destruct (mul_sign _ _ Hfin) as [Hs _].
  specialize (Hs (Qmult_le_0_compat _ _ Hn0 Hk0)).
  assert (Hk' : Qabs (value (tax_rate / float_of_Z 100)%float) <= 1)
    by (apply Qabs_le_one; lra).
  pose proof (mul_contract (ultra_wealthy_new (body s)) _ Hfin Hk') as Hc.
  rewrite (Qabs_pos _ Hs), (Qabs_pos _ Hn0) in Hc. split; [exact Hs|exact Hc].
Qed.

(** One part of the redistributed tax. *)
Lemma redistributed_part_nonnegative (s : YearSnapshot float) (c : float) :
  nonnegative_if_finite (ultra_wealthy s) → 0 <= value c →
  PrimFloat.is_finite (tax_to_redistribute (body s) * c)%float = true →
  0 <= value (tax_to_redistribute (body s) * c)%float.
Proof.
  intros Htop Hc Hfin.
  destruct (mul_error _ _ Hfin) as (Hr & _ & _).
  destruct (mul_error (tax_collected (body s)) redistribution_eff Hr) as (Ht & _ & _).
  destruct (tax_collected_bounds s Htop Ht) as [Ht0 _].
  destruct (mul_sign (tax_collected (body s)) redistribution_eff Hr) as [Hs _].
  specialize (Hs (Qmult_le_0_compat _ _ Ht0 efficiency_nonnegative)).
  destruct (mul_sign _ _ Hfin) as [Hs' _]. apply Hs'.
  by apply Qmult_le_0_compat.
Qed.

(** One pass of the loop body keeps every wealth value that stays a
    number nonnegative. *)
Lemma year_body_nonnegative (yr : Z) (s : YearSnapshot float) :
  no_negative_wealth s → no_negative_wealth (update_state yr (body s)).
Proof.
  intros (Htop & Hmid & Hlow). split; [|split]; intros Hfin.
  - change (PrimFloat.is_finite
              (ultra_wealthy_new (body s) - tax_collected (body s))%float = true) in Hfin.
    destruct (sub_error _ _ Hfin) as (_ & Ht & _).
    destruct (tax_collected_bounds s Htop Ht) as [_ Hle].
    exact (sub_nonneg _ _ Hfin Hle).
  - change (PrimFloat.is_finite
              (middle_wealth_new (body s)
               + tax_to_redistribute (body s) * of_decimal 3 1)%float = true) in Hfin.
    destruct (add_error _ _ Hfin) as (Hnew & Hpart & _).
    assert (H1 : 0 <= value (middle_wealth_new (body s))).
    { apply (grow_nonneg (middle_wealth s) (growth_rate / float_of_Z 100)%float Hnew Hmid).
      intros Hr. by apply percent_fraction. }
    assert (H2 : 0 <= value (tax_to_redistribute (body s) * of_decimal 3 1)%float).
    { apply redistributed_part_nonnegative; [done| |done]. by vm_compute. }
    refine (add_nonneg _ _ Hfin _). lra.
  - change (PrimFloat.is_finite
              (lower_wealth_new (body s)
               + tax_to_redistribute (body s) * of_decimal 7 1)%float = true) in Hfin.
    destruct (add_error _ _ Hfin) as (Hnew & Hpart & _).
    assert (H1 : 0 <= value (lower_wealth_new (body s))).
    { apply (grow_nonneg (lower_wealth s) (growth_rate / float_of_Z 100)%float Hnew Hlow).
      intros Hr. by apply percent_fraction. }
    assert (H2 : 0 <= value (tax_to_redistribute (body s) * of_decimal 7 1)%float).
    { apply redistributed_part_nonnegative; [done| |done]. by vm_compute. }
    refine (add_nonneg _ _ Hfin _). lra.
Qed.

End Nonnegativity.

Section Revenue_error.
Local Open Scope Q_scope.



End Revenue_error.

(** ** The update rule *)




(** ** Scenario A *)

(** C4, as the code has it: Scenario A on binary64.  From 1200 / 8000 /
    800 with a 2% tax, 5% base growth, 1% premium, 80% efficiency and one
    year, the pass computes 1272, 8400 and 840, the float nearest to
    25.44, and the row of year 1 holds the floats nearest to 1246.56,
    8406.1056 and 854.2464; the redistributed amount is the float next
    above the one nearest to 20.352. *)
Theorem scenario_A :
  ∃ s0 s1,
    simulate_wealth_tax_impact initialize_wealth_groups 1 (of_int 2) Defaults.wealth_threshold
      (of_int 5) (of_int 1) (of_decimal 8 1) = Some [s0; s1]
    ∧ let l := year_body (of_int 2) (of_int 5) (of_int 1) (of_decimal 8 1) s0 in
      ultra_wealthy s0 = of_int 1200 ∧ middle_wealth s0 = of_int 8000
      ∧ lower_wealth s0 = of_int 800
      ∧ ultra_wealthy_new l = of_int 1272
      ∧ tax_collected l = of_decimal 2544 2
      ∧ tax_to_redistribute l = PrimFloat.next_up (of_decimal 20352 3)
      ∧ middle_wealth_new l = of_int 8400
      ∧ lower_wealth_new l = of_int 840
      ∧ year s1 = 1
      ∧ ultra_wealthy s1 = of_decimal 124656 2
      ∧ middle_wealth s1 = of_decimal 84061056 4
      ∧ lower_wealth s1 = of_decimal 8542464 4.
Proof.
  eexists _, _. split; [vm_compute; reflexivity|].
  repeat split; vm_compute; reflexivity.
Qed.

(** C4, as stated, fails on binary64 in one figure: the redistributed
    amount of Scenario A is not the float of 20.352 but lies above it. *)
Lemma scenario_A_redistributed_amount :
  let s0 := {| year := 0; ultra_wealthy := of_int 1200; middle_wealth := of_int 8000;
               lower_wealth := of_int 800 |} in
  let l := year_body (of_int 2) (of_int 5) (of_int 1) (of_decimal 8 1) s0 in
  PrimFloat.eqb (tax_to_redistribute l) (of_decimal 20352 3) = false
  ∧ PrimFloat.ltb (of_decimal 20352 3) (tax_to_redistribute l) = true.
Proof. split; vm_compute; reflexivity. Qed.

(** ** Conservation *)

(** C3, as the code has it: in one pass of the loop body, for any
    previous state and any parameters for which the three emitted values
    are finite floats, the total after growth and the total of the
    emitted state plus the part of the tax that redistribution loses,
    taken on the exact values of the floats the pass computed, differ by
    at most [2^-51] times the magnitudes involved, plus [2^-1073]: the
    identity holds up to the rounding of the pass, not exactly. *)
Theorem conservation_up_to_rounding
    (tax_rate growth_rate high_wealth_premium redistribution_eff : float)
    (current_state : YearSnapshot float) (yr : Z) :
  let l := year_body tax_rate growth_rate high_wealth_premium redistribution_eff
             current_state in
  let next := update_state yr l in
  PrimFloat.is_finite (ultra_wealthy next) = true →
  PrimFloat.is_finite (middle_wealth next) = true →
  PrimFloat.is_finite (lower_wealth next) = true →
  (Qabs (emitted_total l + leakage redistribution_eff l - grown_total l)
   <= pow2 (-51) * conservation_scale redistribution_eff l + pow2 (-1073))%Q.
Proof.
  intros l next Hu Hm Hl.
  exact (conservation_error tax_rate growth_rate high_wealth_premium redistribution_eff
           current_state Hu Hm Hl).
Qed.

Lemma conservation_up_to_rounding_witness :
  ∃ current_state,
    default_rows !! 1%nat = Some current_state
    ∧ let l := year_body Defaults.tax_rate Defaults.avg_growth_rate
                 Defaults.high_wealth_growth_premium Defaults.redistribution_efficiency
                 current_state in
      let next := update_state 2 l in
      PrimFloat.is_finite (ultra_wealthy next) = true
      ∧ PrimFloat.is_finite (middle_wealth next) = true
      ∧ PrimFloat.is_finite (lower_wealth next) = true
      ∧ (Qabs (emitted_total l + leakage Defaults.redistribution_efficiency l - grown_total l)
         <= pow2 (-51) * conservation_scale Defaults.redistribution_efficiency l
            + pow2 (-1073))%Q.
Proof.
  eexists. split; [vm_compute; reflexivity|].
  intros l next.
  assert (Hu : PrimFloat.is_finite (ultra_wealthy next) = true) by (vm_compute; reflexivity).
  assert (Hm : PrimFloat.is_finite (middle_wealth next) = true) by (vm_compute; reflexivity).
  assert (Hl : PrimFloat.is_finite (lower_wealth next) = true) by (vm_compute; reflexivity).
  split; [exact Hu|]. split; [exact Hm|]. split; [exact Hl|].
  exact (conservation_up_to_rounding Defaults.tax_rate Defaults.avg_growth_rate
           Defaults.high_wealth_growth_premium Defaults.redistribution_efficiency
           _ 2 Hu Hm Hl).
Defined.

(** C3, as stated, fails on binary64: in year 2 of the page's default run
    the two sides of the identity differ, whether the sums are evaluated
    in floats, as the code would, or exactly on the floats computed. *)
Lemma conservation_fails_on_binary64 :
  ∃ current_state,
    simulation_results = Some default_rows
    ∧ default_rows !! 1%nat = Some current_state
    ∧ let l := year_body Defaults.tax_rate Defaults.avg_growth_rate
                 Defaults.high_wealth_growth_premium Defaults.redistribution_efficiency
                 current_state in
      PrimFloat.eqb (specified_grown_total l)
        (specified_emitted_total l + specified_leakage Defaults.redistribution_efficiency l)%num
      = false
      ∧ ¬ (grown_total l == emitted_total l + leakage Defaults.redistribution_efficiency l)%Q.
Proof.
  eexists. split; [vm_compute; reflexivity|]. split; [vm_compute; reflexivity|].
  split; [vm_compute; reflexivity|].
  intros Heq. apply Qeq_bool_iff in Heq. vm_compute in Heq. discriminate Heq.
Qed.

(** C7, as the code has it: with a redistribution efficiency of 1 and
    finite emitted values, the total of the emitted state and the total
    after growth, taken on the exact values of the floats the pass
    computed, differ by at most [2^-51] times the magnitudes involved,
    plus [2^-1073]: the tax-and-redistribution part conserves the total
    up to rounding, not exactly. *)
Theorem full_efficiency_conserves_up_to_rounding
    (tax_rate growth_rate high_wealth_premium redistribution_eff : float)
    (current_state : YearSnapshot float) (yr : Z) :
  redistribution_eff = of_int 1 →
  let l := year_body tax_rate growth_rate high_wealth_premium redistribution_eff
             current_state in
  let next := update_state yr l in
  PrimFloat.is_finite (ultra_wealthy next) = true →
  PrimFloat.is_finite (middle_wealth next) = true →
  PrimFloat.is_finite (lower_wealth next) = true →
  (Qabs (emitted_total l - grown_total l)
   <= pow2 (-51)
      * (Qabs (value (ultra_wealthy_new l)) + Qabs (value (middle_wealth_new l))
         + Qabs (value (lower_wealth_new l)) + 2 * Qabs (value (tax_collected l)))
      + pow2 (-1073))%Q.
Proof.
  intros -> l next Hu Hm Hl.
  pose proof (conservation_error tax_rate growth_rate high_wealth_premium (of_int 1)
                current_state Hu Hm Hl) as Hc.
  fold l in Hc. unfold emitted_total, grown_total.
  assert (H1 : (value (of_int 1) == 1)%Q) by reflexivity.
  rewrite H1 in Hc.
  setoid_replace (value (tax_collected l) * (1 - 1))%Q with 0%Q using relation Qeq in Hc by ring.
  setoid_replace (value (tax_collected l) * 1)%Q with (value (tax_collected l))
    using relation Qeq in Hc by ring.
  set (A := value (ultra_wealthy_after_tax l)) in *.
  set (M := value (middle_wealth_final l)) in *.
  set (L := value (lower_wealth_final l)) in *.
  set (G := (value (ultra_wealthy_new l) + value (middle_wealth_new l)
             + value (lower_wealth_new l))%Q) in *.
  setoid_replace (A + M + L + 0 - G)%Q with (A + M + L - G)%Q using relation Qeq in Hc by ring.
  eapply Qle_trans; [exact Hc|]. apply Qle_lteq. right. ring.
Qed.

Lemma full_efficiency_conserves_up_to_rounding_witness :
  let current_state := {| year := 0; ultra_wealthy := of_int 1200;
                          middle_wealth := of_int 8000; lower_wealth := of_int 800 |} in
  of_int 1 = of_int 1
  ∧ let l := year_body (of_int 1) Defaults.avg_growth_rate
               Defaults.high_wealth_growth_premium (of_int 1) current_state in
    let next := update_state 1 l in
    PrimFloat.is_finite (ultra_wealthy next) = true
    ∧ PrimFloat.is_finite (middle_wealth next) = true
    ∧ PrimFloat.is_finite (lower_wealth next) = true
    ∧ (Qabs (emitted_total l - grown_total l)
       <= pow2 (-51)
          * (Qabs (value (ultra_wealthy_new l)) + Qabs (value (middle_wealth_new l))
             + Qabs (value (lower_wealth_new l)) + 2 * Qabs (value (tax_collected l)))
          + pow2 (-1073))%Q.
Proof.
  intros current_state.
  assert (Heff : of_int (num := float) 1 = of_int 1) by reflexivity.
  split; [exact Heff|]. intros l next.
  assert (Hu : PrimFloat.is_finite (ultra_wealthy next) = true) by (vm_compute; reflexivity).
  assert (Hm : PrimFloat.is_finite (middle_wealth next) = true) by (vm_compute; reflexivity).
  assert (Hl : PrimFloat.is_finite (lower_wealth next) = true) by (vm_compute; reflexivity).
  split; [exact Hu|]. split; [exact Hm|]. split; [exact Hl|].
  exact (full_efficiency_conserves_up_to_rounding (of_int 1) Defaults.avg_growth_rate
           Defaults.high_wealth_growth_premium (of_int 1) current_state 1 Heff Hu Hm Hl).
Defined.

(** C7, as stated, fails on binary64: with a tax of 1% and an efficiency
    of 1 on the initial distribution, the grown values sum to 10512 and
    the emitted values to the next float above it; the exact sums of the
    floats differ as well. *)
Lemma full_efficiency_total_differs :
  let current_state := {| year := 0; ultra_wealthy := of_int 1200;
                          middle_wealth := of_int 8000; lower_wealth := of_int 800 |} in
  let l := year_body (of_int 1) Defaults.avg_growth_rate
             Defaults.high_wealth_growth_premium (of_int 1) current_state in
  PrimFloat.eqb (specified_emitted_total l) (specified_grown_total l) = false
  ∧ specified_grown_total l = of_int 10512
  ∧ specified_emitted_total l = PrimFloat.next_up (of_int 10512)
  ∧ ¬ (emitted_total l == grown_total l)%Q.
Proof.
  intros current_state l. split; [vm_compute; reflexivity|].
  split; [vm_compute; reflexivity|]. split; [vm_compute; reflexivity|].
  intros Heq. apply Qeq_bool_iff in Heq. vm_compute in Heq. discriminate Heq.
Qed.

(** ** The revenue the page recomputes *)




(** ** No tax *)

(** C8, as the code has it: with a zero tax rate and a finite
    efficiency, in every year whose grown top wealth is finite the tax
    collected is a zero, and the middle and lower wealth of the row are
    the grown values [x + x * (growth / 100)] of the row before (up to
    the sign of a zero); in a year whose grown top wealth has overflowed
    the tax collected is [nan]. *)
Theorem zero_tax_rate_organic_growth (wealth_groups : gmap string (WealthGroup float))
    (years : Z)
    (tax_rate threshold growth_rate high_wealth_premium redistribution_eff : float)
    (traj : list (YearSnapshot float)) (t : Z) :
  PrimFloat.is_zero tax_rate = true →
  PrimFloat.is_finite redistribution_eff = true →
  simulate_wealth_tax_impact wealth_groups years tax_rate threshold growth_rate
    high_wealth_premium redistribution_eff = Some traj →
  1 ≤ t ≤ years →
  ∃ prev next,
    traj !! Z.to_nat (t - 1) = Some prev ∧ traj !! Z.to_nat t = Some next ∧
    let l := year_body tax_rate growth_rate high_wealth_premium redistribution_eff prev in
    (PrimFloat.is_finite (ultra_wealthy_new l) = true →
       PrimFloat.is_zero (tax_collected l) = true
       ∧ same_number (middle_wealth next)
           (middle_wealth prev + middle_wealth prev * (growth_rate / of_int 100))%num
       ∧ same_number (lower_wealth next)
           (lower_wealth prev + lower_wealth prev * (growth_rate / of_int 100))%num)
    ∧ (PrimFloat.is_finite (ultra_wealthy_new l) = false →
       PrimFloat.is_nan (tax_collected l) = true).
Proof.
  intros Htax Heff Hsim Ht.
  destruct (simulate_step _ _ _ _ _ _ _ _ _ Hsim Ht) as (prev & Hprev & Hnext).
  eexists prev, _. split; [exact Hprev|]. split; [exact Hnext|].
  exact (zero_tax_step tax_rate growth_rate high_wealth_premium redistribution_eff prev
           Htax Heff).
Qed.

Lemma zero_tax_rate_organic_growth_witness :
  PrimFloat.is_zero (of_int 0) = true
  ∧ PrimFloat.is_finite Defaults.redistribution_efficiency = true
  ∧ simulate_wealth_tax_impact initialize_wealth_groups 4 (of_int 0)
      Defaults.wealth_threshold Defaults.avg_growth_rate
      Defaults.high_wealth_growth_premium Defaults.redistribution_efficiency
    = Some zero_tax_rows
  ∧ 1 ≤ 4 ≤ 4
  ∧ ∃ prev next,
      zero_tax_rows !! Z.to_nat (4 - 1) = Some prev
      ∧ zero_tax_rows !! Z.to_nat 4 = Some next
      ∧ let l := year_body (of_int 0) Defaults.avg_growth_rate
                   Defaults.high_wealth_growth_premium Defaults.redistribution_efficiency
                   prev in
        (PrimFloat.is_finite (ultra_wealthy_new l) = true →
           PrimFloat.is_zero (tax_collected l) = true
           ∧ same_number (middle_wealth next)
               (middle_wealth prev
                + middle_wealth prev * (Defaults.avg_growth_rate / of_int 100))%num
           ∧ same_number (lower_wealth next)
               (lower_wealth prev
                + lower_wealth prev * (Defaults.avg_growth_rate / of_int 100))%num)
        ∧ (PrimFloat.is_finite (ultra_wealthy_new l) = false →
           PrimFloat.is_nan (tax_collected l) = true).
Proof.
  assert (Htax : PrimFloat.is_zero (of_int 0) = true) by (vm_compute; reflexivity).
  assert (Heff : PrimFloat.is_finite Defaults.redistribution_efficiency = true)
    by (vm_compute; reflexivity).
  assert (Hsim : simulate_wealth_tax_impact initialize_wealth_groups 4 (of_int 0)
                   Defaults.wealth_threshold Defaults.avg_growth_rate
                   Defaults.high_wealth_growth_premium Defaults.redistribution_efficiency
                 = Some zero_tax_rows) by (vm_compute; reflexivity).
  assert (Ht : 1 ≤ 4 ≤ 4) by lia.
  split; [exact Htax|]. split; [exact Heff|]. split; [exact Hsim|]. split; [exact Ht|].
  exact (zero_tax_rate_organic_growth initialize_wealth_groups 4 (of_int 0)
           Defaults.wealth_threshold Defaults.avg_growth_rate
           Defaults.high_wealth_growth_premium Defaults.redistribution_efficiency
           zero_tax_rows 4 Htax Heff Hsim Ht).
Defined.

(** C8, as stated, fails on binary64.  Without a tax, over four years of
    the default distribution, the middle wealth of year 4 is below the
    middle wealth of year 3 times [1 + 5 / 100]; and for a top wealth of
    [10^308] growing by 100% a year the grown top wealth is infinite and
    the tax collected at a zero rate is [nan], not zero. *)
Lemma zero_tax_growth_differs :
  (∃ prev next,
     simulate_wealth_tax_impact initialize_wealth_groups 4 (of_int 0)
       Defaults.wealth_threshold Defaults.avg_growth_rate
       Defaults.high_wealth_growth_premium Defaults.redistribution_efficiency
     = Some zero_tax_rows
     ∧ zero_tax_rows !! 3%nat = Some prev ∧ zero_tax_rows !! 4%nat = Some next
     ∧ PrimFloat.eqb (middle_wealth next)
         (middleGrown (specified_year (of_int 0) Defaults.avg_growth_rate
                         Defaults.high_wealth_growth_premium
                         Defaults.redistribution_efficiency prev)) = false
     ∧ PrimFloat.ltb (middle_wealth next)
         (middleGrown (specified_year (of_int 0) Defaults.avg_growth_rate
                         Defaults.high_wealth_growth_premium
                         Defaults.redistribution_efficiency prev)) = true)
  ∧ let l := year_body (of_int 0) (of_int 100) (of_int 0)
               Defaults.redistribution_efficiency
               {| year := 0; ultra_wealthy := of_int (10 ^ 308);
                  middle_wealth := of_int 8000; lower_wealth := of_int 800 |} in
    PrimFloat.is_finite (of_int (10 ^ 308)) = true
    ∧ ultra_wealthy_new l = infinity
    ∧ PrimFloat.is_nan (tax_collected l) = true.
Proof.
  split.
  - eexists _, _. split; [vm_compute; reflexivity|].
    split; [vm_compute; reflexivity|]. split; [vm_compute; reflexivity|].
    split; vm_compute; reflexivity.
  - repeat split; vm_compute; reflexivity.
Qed.

(** ** Nonnegativity *)

(** C10, as the code has it: if the initial wealth values are
    nonnegative, the tax rate is between 0 and 100, the efficiency
    between 0 and 1, the base growth rate at least -100 and the float sum
    of the base growth rate and the premium at least -100, then in every
    row of the trajectory every wealth value that is a finite float is
    nonnegative.  (A value that has overflowed is an infinity or [nan],
    of which nothing is said.) *)
Theorem wealth_stays_nonnegative (wealth_groups : gmap string (WealthGroup float))
    (u m l : WealthGroup float) (years : Z)
    (tax_rate threshold growth_rate high_wealth_premium redistribution_eff : float)
    (traj : list (YearSnapshot float)) :
  wealth_groups !! ULTRA = Some u → wealth_groups !! MIDDLE = Some m →
  wealth_groups !! LOWER = Some l →
  (0 <= value (total_wealth u))%Q → (0 <= value (total_wealth m))%Q →
  (0 <= value (total_wealth l))%Q →
  (0 <= value tax_rate <= 100)%Q → (0 <= value redistribution_eff <= 1)%Q →
  (-100 <= value growth_rate)%Q →
  (-100 <= value (growth_rate + high_wealth_premium)%float)%Q →
  simulate_wealth_tax_impact wealth_groups years tax_rate threshold growth_rate
    high_wealth_premium redistribution_eff = Some traj →
  Forall no_negative_wealth traj.
Proof.
  intros Hu Hm Hl Hu0 Hm0 Hl0 Htax [He _] Hg Hgp Hsim.
  assert (Hs0 : initial_state wealth_groups
                = Some {| year := 0; ultra_wealthy := total_wealth u;
                          middle_wealth := total_wealth m;
                          lower_wealth := total_wealth l |}).
  { unfold initial_state. by rewrite Hu, Hm, Hl. }
  rewrite (simulate_unfold _ _ _ _ _ _ _ _ Hs0) in Hsim. injection Hsim as <-.
  assert (H0 : no_negative_wealth {| year := 0; ultra_wealthy := total_wealth u;
                                      middle_wealth := total_wealth m;
                                      lower_wealth := total_wealth l |}).
  { repeat split; intros _; assumption. }
  constructor; [exact H0|].
  apply appended_invariant; [|exact H0].
  intros y s Hs. by apply year_body_nonnegative.
Qed.

Lemma wealth_stays_nonnegative_witness :
  let u := {| population := of_decimal 22 3; total_wealth := of_int 1200 |} in
  let m := {| population := of_int 30; total_wealth := of_int 8000 |} in
  let l := {| population := of_int 36; total_wealth := of_int 800 |} in
  initialize_wealth_groups !! ULTRA = Some u
  ∧ initialize_wealth_groups !! MIDDLE = Some m
  ∧ initialize_wealth_groups !! LOWER = Some l
  ∧ (0 <= value (total_wealth u))%Q ∧ (0 <= value (total_wealth m))%Q
  ∧ (0 <= value (total_wealth l))%Q
  ∧ (0 <= value Defaults.tax_rate <= 100)%Q
  ∧ (0 <= value Defaults.redistribution_efficiency <= 1)%Q
  ∧ (-100 <= value Defaults.avg_growth_rate)%Q
  ∧ (-100 <= value (Defaults.avg_growth_rate + Defaults.high_wealth_growth_premium)%float)%Q
  ∧ simulation_results = Some default_rows
  ∧ Forall no_negative_wealth default_rows.
Proof.
  intros u m l.
  assert (Hu : initialize_wealth_groups !! ULTRA = Some u) by (vm_compute; reflexivity).
  assert (Hm : initialize_wealth_groups !! MIDDLE = Some m) by (vm_compute; reflexivity).
  assert (Hl : initialize_wealth_groups !! LOWER = Some l) by (vm_compute; reflexivity).
  assert (Hu0 : (0 <= value (total_wealth u))%Q) by (by vm_compute).
  assert (Hm0 : (0 <= value (total_wealth m))%Q) by (by vm_compute).
  assert (Hl0 : (0 <= value (total_wealth l))%Q) by (by vm_compute).
  assert (Htax : (0 <= value Defaults.tax_rate <= 100)%Q) by (split; by vm_compute).
  assert (Heff : (0 <= value Defaults.redistribution_efficiency <= 1)%Q)
    by (split; by vm_compute).
  assert (Hg : (-100 <= value Defaults.avg_growth_rate)%Q) by (by vm_compute).
  assert (Hgp : (-100 <= value (Defaults.avg_growth_rate
                                + Defaults.high_wealth_growth_premium)%float)%Q)
    by (by vm_compute).
  assert (Hsim : simulation_results = Some default_rows) by (vm_compute; reflexivity).
  repeat (split; [assumption|]).
  exact (wealth_stays_nonnegative initialize_wealth_groups u m l Defaults.years_to_simulate
           Defaults.tax_rate Defaults.wealth_threshold Defaults.avg_growth_rate
           Defaults.high_wealth_growth_premium Defaults.redistribution_efficiency
           default_rows Hu Hm Hl Hu0 Hm0 Hl0 Htax Heff Hg Hgp Hsim).
Defined.

(** C10, as stated, fails on binary64: a top wealth of [10^308] that grows
    by 100% overflows, the tax on it is infinite as well, and the top
    wealth of year 1 is their difference [nan], which is not [>= 0],
    although the initial values and the parameters satisfy every
    hypothesis. *)
Lemma overflow_loses_nonnegativity :
  ∃ s0 s1,
    simulate_wealth_tax_impact overflowing_groups 1 (of_int 2) Defaults.wealth_threshold
      (of_int 100) (of_int 0) (of_decimal 8 1) = Some [s0; s1]
    ∧ PrimFloat.leb (of_int 0) (ultra_wealthy s0) = true
    ∧ PrimFloat.leb (of_int 0) (middle_wealth s0) = true
    ∧ PrimFloat.leb (of_int 0) (lower_wealth s0) = true
    ∧ PrimFloat.leb (of_int 0) (of_int 2) = true
    ∧ PrimFloat.leb (of_int 2) (of_int 100) = true
    ∧ PrimFloat.leb (of_int 0) (of_decimal 8 1) = true
    ∧ PrimFloat.leb (of_decimal 8 1) (of_int 1) = true
    ∧ PrimFloat.leb (of_int (-100)) (of_int 100) = true
    ∧ PrimFloat.leb (of_int (-100)) (of_int 100 + of_int 0)%num = true
    ∧ PrimFloat.is_finite (ultra_wealthy s0) = true
    ∧ PrimFloat.is_nan (ultra_wealthy s1) = true
    ∧ PrimFloat.leb (of_int 0) (ultra_wealthy s1) = false.
Proof.
  eexists _, _. split; [vm_compute; reflexivity|].
  repeat split; vm_compute; reflexivity.
Qed.

(** ** The share table *)

Section Share_table_facts.
Import Frame.

(** *** Column names *)

Lemma string_length_app (a b : string) :
  String.length (a +:+ b) = (String.length a + String.length b)%nat.
Proof. induction a as [|c a IH]; simpl; [done|]. by rewrite IH. Qed.

Lemma share_name_not_year (c : string) : c +:+ " Share" ≠ "year".
Proof.
  intros Heq. apply (f_equal String.length) in Heq.
  rewrite string_length_app in Heq. simpl in Heq. lia.
Qed.

(** *** Loops and frame updates *)

Lemma for_each_cons {A S} (body : S → A → option S) (x : A) (xs : list A) (s : S) :
  for_each (x :: xs) body s = body s x ≫= for_each xs body.
Proof.
  unfold for_each. simpl. destruct (body s x) as [s'|]; simpl; [done|].
  induction xs as [|y ys IH]; simpl; done.
Qed.

Lemma length_assign (mask : list bool) (v : scalar) (vs : list scalar) :
  length (assign mask v vs) = length vs.
Proof.
  revert vs. induction mask as [|b mask IH]; intros [|x vs]; simpl; try done.
  by rewrite IH.
Qed.

Lemma column_set_column (df : DataFrame) (name c : string) (f : list scalar → list scalar) :
  column (set_column df name f) c
  = if decide (c = name) then f <$> column df c else column df c.
Proof.
  induction df as [|[c0 vs] df IH]; simpl.
  - by destruct (decide (c = name)).
  - destruct (decide (c0 = name)) as [->|Hne]; simpl.
    + destruct (decide (name = c)) as [<-|Hnc].
      * by rewrite decide_True.
      * by rewrite decide_False by done.
    + destruct (decide (c0 = c)) as [->|Hc].
      * by rewrite decide_False by done.
      * exact IH.
Qed.

Lemma column_app_new (df : DataFrame) (name c : string) (vs : list scalar) :
  column df name = None →
  column (df ++ [(name, vs)]) c
  = if decide (c = name) then Some vs else column df c.
Proof.
  induction df as [|[c0 ws] df IH]; simpl; intros Hnone.
  - destruct (decide (name = c)) as [<-|Hne].
    + by rewrite decide_True.
    + by rewrite decide_False by done.
  - destruct (decide (c0 = name)) as [->|Hne]; [done|].
    destruct (decide (c0 = c)) as [->|Hc].
    + by rewrite decide_False by done.
    + by apply IH.
Qed.

Lemma column_loc_assign (df : DataFrame) (mask : list bool) (name c : string) (v : scalar) :
  column (loc_assign df mask name v) c
  = if decide (c = name)
    then Some (match column df name with
               | Some vs => assign mask v vs
               | None => (λ b : bool, if b then v else Float nan) <$> mask
               end)
    else column df c.
Proof.
  unfold loc_assign. destruct (column df name) as [vs|] eqn:Hcol.
  - rewrite column_set_column. destruct (decide (c = name)) as [->|]; [|done].
    by rewrite Hcol.
  - by apply column_app_new.
Qed.

Lemma column_elem_of (df : DataFrame) (c : string) :
  c ∈ columns df → is_Some (column df c).
Proof.
  induction df as [|[c0 vs] df IH]; simpl; intros Hin.
  - by apply elem_of_nil in Hin.
  - destruct (decide (c0 = c)) as [->|Hne]; [by eexists|].
    apply elem_of_cons in Hin as [->|Hin]; [done|]. by apply IH.
Qed.

Lemma keeps_row_0_refl (df : DataFrame) : keeps_row_0 df df.
Proof. by split. Qed.

Lemma keeps_row_0_trans (df1 df2 df3 : DataFrame) :
  keeps_row_0 df1 df2 → keeps_row_0 df2 df3 → keeps_row_0 df1 df3.
Proof. intros [H1 H2] [H3 H4]. split; eauto. Qed.

Lemma head_select_is_Some (mask : list bool) (vs : list scalar) :
  length vs = length mask → true ∈ mask → is_Some (head (select mask vs)).
Proof.
  revert vs. induction mask as [|b mask IH]; intros vs Hlen Hin.
  - by apply elem_of_nil in Hin.
  - destruct vs as [|v vs]; [done|]. simpl in *.
    destruct b; [by eexists|].
    apply elem_of_cons in Hin as [Hin|Hin]; [done|].
    apply IH; [lia|done].
Qed.

(** *** One pass of the outer loop, for a year that is not row 0's

    Such a pass succeeds on a well-formed frame, keeps it well formed and
    leaves row 0 as it was. *)

Section Pass.
Variables (Y : list scalar) (yr : scalar) (total : float).

Local Abbreviation mask := (map (λ x, scalar_eqb x yr) Y).

Hypothesis year_present : ∃ y, y ∈ Y ∧ scalar_eqb y yr = true.

Lemma mask_has_true : true ∈ mask.
Proof.
  destruct year_present as (y & Hy & Heq). rewrite <- Heq.
  apply list_elem_of_In. apply (in_map (λ x, scalar_eqb x yr)). by apply list_elem_of_In.
Qed.

Lemma eq_mask_year (df : DataFrame) :
  well_formed Y df → eq_mask df "year" yr = Some mask.
Proof. intros [Hy _]. unfold eq_mask. by rewrite Hy. Qed.

Lemma loc_value0_is_Some (df : DataFrame) (c : string) :
  well_formed Y df → is_Some (column df c) → is_Some (loc_value0 df mask c).
Proof.
  intros [_ Hlen] [vs Hvs]. unfold loc_value0. rewrite Hvs. simpl.
  apply head_select_is_Some; [|exact mask_has_true].
  rewrite length_map. by apply (Hlen c).
Qed.

Lemma loc_assign_well_formed (df : DataFrame) (c : string) (v : scalar) :
  well_formed Y df → well_formed Y (loc_assign df mask (c +:+ " Share") v).
Proof.
  intros [Hy Hlen]. split.
  - rewrite column_loc_assign. rewrite decide_False; [done|].
    intros Heq. by apply (share_name_not_year c).
  - intros c' vs. rewrite column_loc_assign.
    destruct (decide (c' = c +:+ " Share")) as [->|Hne]; [|by apply Hlen].
    intros [= <-]. destruct (column df (c +:+ " Share")) as [ws|] eqn:Hws.
    + rewrite length_assign. by apply (Hlen (c +:+ " Share")).
    + by rewrite length_fmap, length_map.
Qed.

Hypothesis row_0_other : ∃ y0 Y', Y = y0 :: Y' ∧ scalar_eqb y0 yr = false.

Lemma loc_assign_keeps_row_0 (df : DataFrame) (name : string) (v : scalar) :
  keeps_row_0 df (loc_assign df mask name v).
Proof.
  destruct row_0_other as (y0 & Y' & HY & Hy0).
  split.
  - intros c' Hc'. rewrite column_loc_assign.
    destruct (decide (c' = name)); [by eexists|done].
  - intros c' x. unfold cell. rewrite column_loc_assign.
    destruct (decide (c' = name)) as [->|Hne]; [|done].
    destruct (column df name) as [ws|]; [|done]. simpl.
    rewrite HY. simpl. rewrite Hy0. by destruct ws.
Qed.

Lemma share_of_column_other (df : DataFrame) (c : string) :
  well_formed Y df → is_Some (column df c) →
  ∃ df', share_of_column yr total df c = Some df'
       ∧ well_formed Y df' ∧ keeps_row_0 df df'.
Proof.
  intros Hwf Hc. unfold share_of_column.
  destruct (decide (c ≠ "year")) as [Hne|_].
  - rewrite (eq_mask_year df Hwf). simpl.
    destruct (loc_value0_is_Some df c Hwf Hc) as [v ->]. simpl.
    eexists. split; [reflexivity|]. split.
    + by apply loc_assign_well_formed.
    + apply loc_assign_keeps_row_0.
  - exists df. split; [done|]. split; [done|]. apply keeps_row_0_refl.
Qed.

Lemma columns_loop_other (cs : list string) (df : DataFrame) :
  well_formed Y df → (∀ c, c ∈ cs → is_Some (column df c)) →
  ∃ df', for_each cs (share_of_column yr total) df = Some df'
       ∧ well_formed Y df' ∧ keeps_row_0 df df'.
Proof.
  revert df. induction cs as [|c cs IH]; intros df Hwf Hcs.
  - exists df. split; [done|]. split; [done|]. apply keeps_row_0_refl.
  - rewrite for_each_cons.
    destruct (share_of_column_other df c Hwf) as (df1 & -> & Hwf1 & Hk1).
    { apply Hcs. by left. }
    simpl. destruct (IH df1 Hwf1) as (df' & Heq & Hwf' & Hk').
    { intros c' Hc'. apply Hk1, Hcs. by right. }
    exists df'. split; [done|]. split; [done|]. by eapply keeps_row_0_trans.
Qed.

End Pass.

Lemma shares_of_year_other (Y : list scalar) (yr : scalar) (df : DataFrame) :
  (∃ y, y ∈ Y ∧ scalar_eqb y yr = true) →
  (∃ y0 Y', Y = y0 :: Y' ∧ scalar_eqb y0 yr = false) →
  well_formed Y df →
  ∃ df', shares_of_year df yr = Some df' ∧ well_formed Y df' ∧ keeps_row_0 df df'.
Proof.
  intros Hpresent Hother Hwf. unfold shares_of_year.
  rewrite (eq_mask_year Y yr df Hwf). simpl.
  assert (Hterms : is_Some (mapM (loc_value0 df (map (λ x, scalar_eqb x yr) Y))
                              (filter (λ col, col ≠ "year") (columns df)))).
  { apply mapM_is_Some, Forall_forall. intros c Hc. simpl.
    apply (loc_value0_is_Some Y yr Hpresent df c Hwf).
    apply column_elem_of. apply list_elem_of_filter in Hc. tauto. }
  destruct Hterms as [terms ->]. simpl.
  apply columns_loop_other; try done.
  intros c Hc. by apply column_elem_of.
Qed.

Lemma years_loop_other (Y ys : list scalar) (df : DataFrame) :
  (∀ yr, yr ∈ ys →
     (∃ y, y ∈ Y ∧ scalar_eqb y yr = true)
     ∧ (∃ y0 Y', Y = y0 :: Y' ∧ scalar_eqb y0 yr = false)) →
  well_formed Y df →
  ∃ df', for_each ys shares_of_year df = Some df' ∧ well_formed Y df' ∧ keeps_row_0 df df'.
Proof.
  revert df. induction ys as [|yr ys IH]; intros df Hys Hwf.
  - exists df. split; [done|]. split; [done|]. apply keeps_row_0_refl.
  - rewrite for_each_cons.
    destruct (Hys yr ltac:(by left)) as [Hpresent Hother].
    destruct (shares_of_year_other Y yr df Hpresent Hother Hwf) as (df1 & -> & Hwf1 & Hk1).
    simpl. destruct (IH df1) as (df' & Heq & Hwf' & Hk'); [|done|].
    { intros yr' Hyr'. apply Hys. by right. }
    exists df'. split; [done|]. split; [done|]. by eapply keeps_row_0_trans.
Qed.

Lemma length_list_fmap {A B} (f : A → B) (xs : list A) :
  length (list_fmap A B f xs) = length xs.
Proof. apply length_fmap. Qed.

(** *** The pass of year 0 on the frame of a trajectory *)

Section Year_0.
Variables (u m l : float) (rest : list (YearSnapshot float)).

Local Abbreviation s0 :=
  {| year := 0; ultra_wealthy := u; middle_wealth := m; lower_wealth := l |}.
Local Abbreviation Y := ((λ r, Int (year r)) <$> s0 :: rest).
Local Abbreviation total := (sum [Float u; Float m; Float l]).

Lemma shares_of_year_0 :
  ∃ df1, shares_of_year (of_results (s0 :: rest)) (Int 0) = Some df1
       ∧ well_formed Y df1
       ∧ cell df1 (ULTRA +:+ " Share") 0 = Some (Float (u / total))
       ∧ cell df1 (MIDDLE +:+ " Share") 0 = Some (Float (m / total))
       ∧ cell df1 (LOWER +:+ " Share") 0 = Some (Float (l / total)).
Proof.
  set (mask' := map (λ x, scalar_eqb x (Int 0)) ((λ r, Int (year r)) <$> rest)).
  set (fill := λ v : scalar, v :: ((λ b : bool, if b then v else Float nan) <$> mask')).
  exists (of_results (s0 :: rest)
          ++ [ (ULTRA +:+ " Share", fill (Float (u / total)));
               (MIDDLE +:+ " Share", fill (Float (m / total)));
               (LOWER +:+ " Share", fill (Float (l / total))) ]).
  split; [reflexivity|]. split.
  - split; [done|]. intros c vs. unfold of_results, fill, mask'. simpl.
    repeat (case_decide;
            [intros [= <-]; simpl; by rewrite ?length_list_fmap, ?length_map, ?length_list_fmap|]).
    done.
  - repeat split; reflexivity.
Qed.

End Year_0.

(** *** Division by a zero total *)

Lemma div_by_zero (w t : float) :
  PrimFloat.is_zero t = true → share_at_zero_total w (w / t)%float.
Proof.
  unfold share_at_zero_total, PrimFloat.is_zero, PrimFloat.is_nan, PrimFloat.is_infinity.
  rewrite !FloatAxioms.eqb_spec, abs_spec, div_spec.
  change (Prim2SF zero) with (S754_zero false).
  change (Prim2SF infinity) with (S754_infinity false).
  unfold SF64div. intros Ht.
  destruct (Prim2SF t) as [st|st| |st mt et];
    [|by destruct st|done|by destruct st].
  destruct (Prim2SF w) as [sw|sw| |sw mw ew]; try reflexivity.
  - by destruct sw, st.
  - rewrite SFeqb_refl_finite. by destruct sw, st.
Qed.

Lemma elem_of_range (lo hi y : Z) : y ∈ range lo hi → lo ≤ y < hi.
Proof.
  intros Hin. apply list_elem_of_lookup in Hin as [i Hi].
  pose proof (lookup_lt_Some _ _ _ Hi) as Hlt. rewrite length_range in Hlt.
  rewrite lookup_range in Hi by done. injection Hi as <-. lia.
Qed.

End Share_table_facts.

(** C9, as the code has it: the division of the share table has no guard
    and the table is computed without raising.  In the row of year 0 the
    share of each group is its wealth divided by the float sum of the
    three groups; when that sum is exactly zero the quotient is [nan] for
    a group that holds nothing and an infinity for a group that holds
    something.  (The rows of later years are not described here.) *)
Theorem share_table_year_0
    (wealth_groups : gmap string (WealthGroup float)) (u m l : WealthGroup float)
    (years : Z)
    (tax_rate threshold growth_rate high_wealth_premium redistribution_eff : float) :
  wealth_groups !! ULTRA = Some u → wealth_groups !! MIDDLE = Some m →
  wealth_groups !! LOWER = Some l →
  let total := Frame.sum [Frame.Float (total_wealth u); Frame.Float (total_wealth m);
                          Frame.Float (total_wealth l)] in
  ∃ results shares,
    simulate_wealth_tax_impact wealth_groups years tax_rate threshold growth_rate
      high_wealth_premium redistribution_eff = Some results
    ∧ Frame.wealth_shares (Frame.of_results results) = Some shares
    ∧ Frame.cell shares (ULTRA +:+ " Share") 0 = Some (Frame.Float (total_wealth u / total))
    ∧ Frame.cell shares (MIDDLE +:+ " Share") 0 = Some (Frame.Float (total_wealth m / total))
    ∧ Frame.cell shares (LOWER +:+ " Share") 0 = Some (Frame.Float (total_wealth l / total))
    ∧ (PrimFloat.is_zero total = true →
       Frame.share_at_zero_total (total_wealth u) (total_wealth u / total)
       ∧ Frame.share_at_zero_total (total_wealth m) (total_wealth m / total)
       ∧ Frame.share_at_zero_total (total_wealth l) (total_wealth l / total)).
Proof.
  intros Hu Hm Hl total.
  set (s0 := {| year := 0; ultra_wealthy := total_wealth u;
                middle_wealth := total_wealth m; lower_wealth := total_wealth l |}).
  assert (Hs0 : initial_state wealth_groups = Some s0).
  { unfold initial_state. by rewrite Hu, Hm, Hl. }
  set (rest := appended tax_rate growth_rate high_wealth_premium redistribution_eff s0
                 (range 1 (years + 1))).
  exists (s0 :: rest).
  destruct (shares_of_year_0 (total_wealth u) (total_wealth m) (total_wealth l) rest)
    as (df1 & Hpass & Hwf1 & Hcu & Hcm & Hcl).
  destruct (years_loop_other ((λ r, Frame.Int (year r)) <$> s0 :: rest)
              ((λ r, Frame.Int (year r)) <$> rest) df1) as (shares & Hloop & _ & _ & Hkeep);
    [|exact Hwf1|].
  { intros yr Hyr. apply list_elem_of_fmap in Hyr as (r & -> & Hr).
    assert (Hy : 1 ≤ year r < years + 1).
    { apply elem_of_range. unfold rest in Hr.
      rewrite <- (year_appended tax_rate growth_rate high_wealth_premium redistribution_eff
                    (range 1 (years + 1)) s0).
      by apply list_elem_of_fmap_2. }
    split.
    - exists (Frame.Int (year r)). split.
      + rewrite fmap_cons. right. by apply (list_elem_of_fmap_2 (λ r, Frame.Int (year r))).
      + apply Z.eqb_refl.
    - eexists _, _. split; [apply fmap_cons|].
      change ((0 =? year r) = false). apply Z.eqb_neq. lia. }
  exists shares. split; [by apply simulate_unfold|]. split.
  - unfold Frame.wealth_shares.
    change (Frame.column (Frame.of_results (s0 :: rest)) "year")
      with (Some ((λ r, Frame.Int (year r)) <$> s0 :: rest)).
    rewrite fmap_cons. cbn [mbind option_bind]. rewrite for_each_cons.
    change (Frame.Int (year s0)) with (Frame.Int 0). fold s0 in Hpass. rewrite Hpass. exact Hloop.
  - split; [by apply Hkeep|]. split; [by apply Hkeep|]. split; [by apply Hkeep|].
    intros Hzero. repeat split; by apply div_by_zero.
Qed.

Lemma share_table_year_0_witness :
  let u := {| population := of_decimal 22 3; total_wealth := of_int 1200 |} in
  let m := {| population := of_int 30; total_wealth := of_int 8000 |} in
  let l := {| population := of_int 36; total_wealth := of_int 800 |} in
  let total := Frame.sum [Frame.Float (total_wealth u); Frame.Float (total_wealth m);
                          Frame.Float (total_wealth l)] in
  initialize_wealth_groups !! ULTRA = Some u
  ∧ initialize_wealth_groups !! MIDDLE = Some m
  ∧ initialize_wealth_groups !! LOWER = Some l
  ∧ ∃ results shares,
      simulate_wealth_tax_impact initialize_wealth_groups 2 Defaults.tax_rate
        Defaults.wealth_threshold Defaults.avg_growth_rate
        Defaults.high_wealth_growth_premium Defaults.redistribution_efficiency
        = Some results
      ∧ Frame.wealth_shares (Frame.of_results results) = Some shares
      ∧ Frame.cell shares (ULTRA +:+ " Share") 0
        = Some (Frame.Float (total_wealth u / total))
      ∧ Frame.cell shares (MIDDLE +:+ " Share") 0
        = Some (Frame.Float (total_wealth m / total))
      ∧ Frame.cell shares (LOWER +:+ " Share") 0
        = Some (Frame.Float (total_wealth l / total))
      ∧ (PrimFloat.is_zero total = true →
         Frame.share_at_zero_total (total_wealth u) (total_wealth u / total)
         ∧ Frame.share_at_zero_total (total_wealth m) (total_wealth m / total)
         ∧ Frame.share_at_zero_total (total_wealth l) (total_wealth l / total)).
Proof.
  intros u m l total.
  assert (Hu : initialize_wealth_groups !! ULTRA = Some u) by (vm_compute; reflexivity).
  assert (Hm : initialize_wealth_groups !! MIDDLE = Some m) by (vm_compute; reflexivity).
  assert (Hl : initialize_wealth_groups !! LOWER = Some l) by (vm_compute; reflexivity).
  repeat (split; [assumption|]).
  exact (share_table_year_0 initialize_wealth_groups u m l 2 Defaults.tax_rate
           Defaults.wealth_threshold Defaults.avg_growth_rate
           Defaults.high_wealth_growth_premium Defaults.redistribution_efficiency
           Hu Hm Hl).
Defined.

(** C9, as stated, fails: for three groups that hold nothing the total of
    year 0 is exactly zero, and the share the table holds for each group
    is [nan], not zero and not a value put there by a guard. *)
Lemma share_of_zero_total_is_nan :
  ∃ results shares,
    simulate_wealth_tax_impact zero_groups 0 Defaults.tax_rate Defaults.wealth_threshold
      Defaults.avg_growth_rate Defaults.high_wealth_growth_premium
      Defaults.redistribution_efficiency = Some results
    ∧ Frame.wealth_shares (Frame.of_results results) = Some shares
    ∧ (Frame.sum <$> mapM (λ name, Frame.cell (Frame.of_results results) name 0) groups)
      = Some (of_int 0)
    ∧ mapM (λ name, Frame.cell shares (name +:+ " Share") 0) groups
      = Some [Frame.Float nan; Frame.Float nan; Frame.Float nan].
Proof.
  eexists _, _. split; [vm_compute; reflexivity|]. split; [vm_compute; reflexivity|].
  split; vm_compute; reflexivity.
Qed.

(** With wealth of both signs a zero total gives infinities. *)
Example share_of_zero_total_is_infinite :
  let group w := {| population := of_int 1; total_wealth := of_int w |} in
  ∃ results shares,
    simulate_wealth_tax_impact
      (<[ULTRA := group 5]> (<[MIDDLE := group (-5)]> (<[LOWER := group 0]> ∅)))
      0 Defaults.tax_rate Defaults.wealth_threshold Defaults.avg_growth_rate
      Defaults.high_wealth_growth_premium Defaults.redistribution_efficiency = Some results
    ∧ Frame.wealth_shares (Frame.of_results results) = Some shares
    ∧ mapM (λ name, Frame.cell shares (name +:+ " Share") 0) groups
      = Some [Frame.Float infinity; Frame.Float neg_infinity; Frame.Float nan].
Proof.
  eexists _, _. split; [vm_compute; reflexivity|]. split; vm_compute; reflexivity.
Qed.

(** The slip in the share table.  On the page's default run the table is
    right in the row of year 0 only.  In every later row the three groups
    total a positive finite amount, the share as the cumulative-impact
    metrics compute it is a number strictly between 0 and 1, and yet the
    share the table holds is [nan]: the total of a pass is taken over all
    columns but [year], and from the second pass on these include the
    share columns of the passes before, which are still missing in the
    row. *)
Example share_table_nan_after_year_0 :
  ∃ results shares,
    simulation_results = Some results
    ∧ Frame.wealth_shares (Frame.of_results results) = Some shares
    ∧ (∀ name, name ∈ groups →
         is_Some (Frame.cell shares (name +:+ " Share") 0)
         ∧ Frame.cell shares (name +:+ " Share") 0
           = Frame.Float <$> Frame.row_share (Frame.of_results results) 0 name)
    ∧ (∀ (i : nat) name, (1 ≤ i ≤ 20)%nat → name ∈ groups →
         ∃ u m l intended computed,
           Frame.cell (Frame.of_results results) ULTRA i = Some (Frame.Float u)
           ∧ Frame.cell (Frame.of_results results) MIDDLE i = Some (Frame.Float m)
           ∧ Frame.cell (Frame.of_results results) LOWER i = Some (Frame.Float l)
           ∧ PrimFloat.ltb 0 (u + m + l)%float = true
           ∧ PrimFloat.is_finite (u + m + l)%float = true
           ∧ Frame.row_share (Frame.of_results results) i name = Some intended
           ∧ PrimFloat.ltb 0 intended = true ∧ PrimFloat.ltb intended 1 = true
           ∧ Frame.cell shares (name +:+ " Share") i = Some (Frame.Float computed)
           ∧ PrimFloat.is_nan computed = true).
Proof.
  exists default_rows, default_shares.
  split; [vm_compute; reflexivity|]. split; [vm_compute; reflexivity|].
  split.
  - intros name Hname. unfold groups in Hname.
    repeat (apply elem_of_cons in Hname as [->|Hname]);
      [| | |by apply elem_of_nil in Hname];
      (split; [vm_compute; by eexists | vm_compute; reflexivity]).
  - intros i name Hi Hname.
    assert (Hall : forallb (λ r, forallb (share_is_lost (Frame.of_results default_rows)
                                            default_shares r) groups) (seq 1 20) = true)
      by (vm_compute; reflexivity).
    rewrite forallb_forall in Hall.
    assert (Hrow : In i (seq 1 20)) by (apply in_seq; lia).
    specialize (Hall i Hrow).
    rewrite forallb_forall in Hall.
    assert (Hgroup : In name groups) by (by apply list_elem_of_In).
    specialize (Hall name Hgroup).
    unfold share_is_lost in Hall.
    destruct (Frame.cell (Frame.of_results default_rows) ULTRA i) as [[|u]|];
      try discriminate Hall.
    destruct (Frame.cell (Frame.of_results default_rows) MIDDLE i) as [[|m]|];
      try discriminate Hall.
    destruct (Frame.cell (Frame.of_results default_rows) LOWER i) as [[|l]|];
      try discriminate Hall.
    destruct (Frame.row_share (Frame.of_results default_rows) i name) as [intended|];
      [|discriminate Hall].
    destruct (Frame.cell default_shares (name +:+ " Share") i) as [[|computed]|];
      try discriminate Hall.
    apply andb_prop in Hall as [Hall Hnan].
    apply andb_prop in Hall as [Hall Hlt1].
    apply andb_prop in Hall as [Hall Hgt0].
    apply andb_prop in Hall as [Hpos Hfin].
    exists u, m, l, intended, computed.
    repeat split; assumption.
Qed.

(** * Further properties

    Properties of the same code beyond the ones above: what the engine
    reads of its input, horizons that are not positive, how runs over
    different horizons relate, the shape of the revenue table, the share
    table after its first row, and the revenue calculator. *)

(** ** The engine, for any arithmetic *)

Section Engine_extras.
Context {num : Type} `{Number num}.

Lemma initial_state_Some (wealth_groups : gmap string (WealthGroup num)) (s0 : YearSnapshot num) :
  initial_state wealth_groups = Some s0 →
  ∃ u m l, wealth_groups !! ULTRA = Some u ∧ wealth_groups !! MIDDLE = Some m
         ∧ wealth_groups !! LOWER = Some l
         ∧ s0 = {| year := 0; ultra_wealthy := total_wealth u;
                   middle_wealth := total_wealth m; lower_wealth := total_wealth l |}.
Proof.
  unfold initial_state.
  destruct (wealth_groups !! ULTRA) as [u|]; [|done].
  destruct (wealth_groups !! MIDDLE) as [m|]; [|done].
  destruct (wealth_groups !! LOWER) as [l|]; [|done].
  simpl. intros [= <-]. by exists u, m, l.
Qed.

Lemma take_appended_app (tax_rate growth_rate high_wealth_premium redistribution_eff : num)
    (ys zs : list Z) (cur : YearSnapshot num) :
  take (length ys)
    (appended tax_rate growth_rate high_wealth_premium redistribution_eff cur (ys ++ zs))
  = appended tax_rate growth_rate high_wealth_premium redistribution_eff cur ys.
Proof.
  revert cur. induction ys as [|y ys IH]; intros cur; [done|].
  cbn [app appended length take]. by rewrite IH.
Qed.

Lemma range_app (lo mid hi : Z) :
  lo ≤ mid ≤ hi → range lo hi = range lo mid ++ range mid hi.
Proof.
  intros Hle. unfold range.
  replace (Z.to_nat (hi - lo)) with (Z.to_nat (mid - lo) + Z.to_nat (hi - mid))%nat by lia.
  rewrite seq_app, fmap_app. f_equal. simpl.
  replace (seq (Z.to_nat (mid - lo)) (Z.to_nat (hi - mid)))
    with (Nat.add (Z.to_nat (mid - lo)) <$> seq 0 (Z.to_nat (hi - mid)))
    by (rewrite fmap_add_seq; f_equal; lia).
  rewrite <- list_fmap_compose.
  apply list_fmap_ext. intros _ i _. simpl. lia.
Qed.

End Engine_extras.

(** X2: the engine reads nothing of the dictionary but the total wealth
    of the three groups: populations and further keys do not influence
    the result. *)
Theorem simulate_reads_total_wealth_only {num : Type} `{Number num}
    (wealth_groups wealth_groups' : gmap string (WealthGroup num)) (years : Z)
    (tax_rate threshold growth_rate high_wealth_premium redistribution_eff : num) :
  (∀ name, name ∈ groups →
     total_wealth <$> wealth_groups !! name = total_wealth <$> wealth_groups' !! name) →
  simulate_wealth_tax_impact wealth_groups years tax_rate threshold growth_rate
    high_wealth_premium redistribution_eff
  = simulate_wealth_tax_impact wealth_groups' years tax_rate threshold growth_rate
      high_wealth_premium redistribution_eff.
Proof.
  intros Hsame.
  assert (Hinit : initial_state wealth_groups = initial_state wealth_groups').
  { unfold initial_state.
    pose proof (Hsame ULTRA ltac:(unfold groups; set_solver)) as Hu.
    pose proof (Hsame MIDDLE ltac:(unfold groups; set_solver)) as Hm.
    pose proof (Hsame LOWER ltac:(unfold groups; set_solver)) as Hl.
    destruct (wealth_groups !! ULTRA) as [u|], (wealth_groups' !! ULTRA) as [u'|];
      simpl in *; try done.
    destruct (wealth_groups !! MIDDLE) as [m|], (wealth_groups' !! MIDDLE) as [m'|];
      simpl in *; try done.
    destruct (wealth_groups !! LOWER) as [l|], (wealth_groups' !! LOWER) as [l'|];
      simpl in *; try done.
    injection Hu as ->. injection Hm as ->. injection Hl as ->. done. }
  unfold simulate_wealth_tax_impact. by rewrite Hinit.
Qed.

Lemma simulate_reads_total_wealth_only_witness :
  let wealth_groups' :=
    <["Others" := {| population := of_int 1; total_wealth := of_int 7 |}]>
      (<[ULTRA := {| population := of_int 5; total_wealth := of_int 1200 |}]>
         initialize_wealth_groups) in
  (∀ name, name ∈ groups →
     total_wealth <$> initialize_wealth_groups !! name
     = total_wealth <$> wealth_groups' !! name)
  ∧ simulate_wealth_tax_impact initialize_wealth_groups 3 Defaults.tax_rate
      Defaults.wealth_threshold Defaults.avg_growth_rate
      Defaults.high_wealth_growth_premium Defaults.redistribution_efficiency
    = simulate_wealth_tax_impact wealth_groups' 3 Defaults.tax_rate
        Defaults.wealth_threshold Defaults.avg_growth_rate
        Defaults.high_wealth_growth_premium Defaults.redistribution_efficiency.
Proof.
  intros wealth_groups'.
  assert (Hsame : ∀ name, name ∈ groups →
            total_wealth <$> initialize_wealth_groups !! name
            = total_wealth <$> wealth_groups' !! name).
  { intros name Hname. unfold groups in Hname.
    repeat (apply elem_of_cons in Hname as [->|Hname]);
      [| | |by apply elem_of_nil in Hname]; vm_compute; reflexivity. }
  split; [exact Hsame|].
  exact (simulate_reads_total_wealth_only initialize_wealth_groups wealth_groups' 3
           Defaults.tax_rate Defaults.wealth_threshold Defaults.avg_growth_rate
           Defaults.high_wealth_growth_premium Defaults.redistribution_efficiency Hsame).
Defined.

(** X3: for a horizon that is zero or negative the loop does not run:
    the result is the single initial row, and a negative horizon is not
    an error. *)
Theorem simulate_nonpositive_horizon {num : Type} `{Number num}
    (wealth_groups : gmap string (WealthGroup num)) (years : Z)
    (tax_rate threshold growth_rate high_wealth_premium redistribution_eff : num) :
  years ≤ 0 →
  simulate_wealth_tax_impact wealth_groups years tax_rate threshold growth_rate
    high_wealth_premium redistribution_eff
  = (λ current_state, [current_state]) <$> initial_state wealth_groups.
Proof.
  intros Hle. unfold simulate_wealth_tax_impact.
  destruct (initial_state wealth_groups) as [s0|]; [|done]. simpl.
  by rewrite range_empty by lia.
Qed.

Lemma simulate_nonpositive_horizon_witness :
  -3 ≤ 0
  ∧ simulate_wealth_tax_impact initialize_wealth_groups (-3) Defaults.tax_rate
      Defaults.wealth_threshold Defaults.avg_growth_rate
      Defaults.high_wealth_growth_premium Defaults.redistribution_efficiency
    = (λ current_state, [current_state]) <$> initial_state initialize_wealth_groups.
Proof.
  assert (Hle : -3 ≤ 0) by lia.
  split; [exact Hle|].
  exact (simulate_nonpositive_horizon initialize_wealth_groups (-3) Defaults.tax_rate
           Defaults.wealth_threshold Defaults.avg_growth_rate
           Defaults.high_wealth_growth_premium Defaults.redistribution_efficiency Hle).
Defined.

(** X4: a longer horizon only appends rows: the run over [years] is the
    first [years + 1] rows of the run over any longer horizon. *)
Theorem simulate_prefix {num : Type} `{Number num}
    (wealth_groups : gmap string (WealthGroup num)) (years years' : Z)
    (tax_rate threshold growth_rate high_wealth_premium redistribution_eff : num) :
  0 ≤ years ≤ years' →
  simulate_wealth_tax_impact wealth_groups years tax_rate threshold growth_rate
    high_wealth_premium redistribution_eff
  = take (Z.to_nat (years + 1))
      <$> simulate_wealth_tax_impact wealth_groups years' tax_rate threshold growth_rate
            high_wealth_premium redistribution_eff.
Proof.
  intros Hle.
  destruct (initial_state wealth_groups) as [s0|] eqn:Hs0.
  - rewrite !(simulate_unfold _ _ _ _ _ _ _ _ Hs0). simpl. f_equal.
    replace (Z.to_nat (years + 1)) with (S (length (range 1 (years + 1))))
      by (rewrite length_range; lia).
    cbn [take]. f_equal.
    rewrite (range_app 1 (years + 1) (years' + 1)) by lia.
    by rewrite take_appended_app.
  - unfold simulate_wealth_tax_impact. by rewrite Hs0.
Qed.

Lemma simulate_prefix_witness :
  0 ≤ 1 ≤ 3
  ∧ simulate_wealth_tax_impact initialize_wealth_groups 1 Defaults.tax_rate
      Defaults.wealth_threshold Defaults.avg_growth_rate
      Defaults.high_wealth_growth_premium Defaults.redistribution_efficiency
    = take (Z.to_nat (1 + 1))
        <$> simulate_wealth_tax_impact initialize_wealth_groups 3 Defaults.tax_rate
              Defaults.wealth_threshold Defaults.avg_growth_rate
              Defaults.high_wealth_growth_premium Defaults.redistribution_efficiency.
Proof.
  assert (Hle : 0 ≤ 1 ≤ 3) by lia.
  split; [exact Hle|].
  exact (simulate_prefix initialize_wealth_groups 1 3 Defaults.tax_rate
           Defaults.wealth_threshold Defaults.avg_growth_rate
           Defaults.high_wealth_growth_premium Defaults.redistribution_efficiency Hle).
Defined.

(** ** The revenue loop *)

Section Revenue_extras.
Context {num : Type} `{Number num}.

(** The revenue loop never raises; it yields one entry per row after the
    first, labelled with that row's year. *)
Lemma tax_revenue_rows (simulation_results : list (YearSnapshot num))
    (avg_growth_rate high_wealth_growth_premium : num) :
  ∃ rows,
    tax_revenue simulation_results avg_growth_rate high_wealth_growth_premium = Some rows
    ∧ length rows = (length simulation_results - 1)%nat
    ∧ tr_year <$> rows = year <$> tail simulation_results.
Proof.
  destruct (tax_revenue_total simulation_results avg_growth_rate high_wealth_growth_premium)
    as (rows & Hrows & Hrow).
  exists rows. split; [exact Hrows|].
  assert (Hlen : length rows = (length simulation_results - 1)%nat).
  { unfold tax_revenue in Hrows. apply mapM_Some, Forall2_length in Hrows.
    rewrite length_range in Hrows. lia. }
  split; [exact Hlen|].
  apply list_eq. intros k. rewrite !list_lookup_fmap.
  destruct (decide (k < length rows)%nat) as [Hk|Hk].
  - specialize (Hrow (Z.of_nat k + 1) ltac:(lia)).
    replace (Z.to_nat (Z.of_nat k + 1 - 1)) with k in Hrow by lia.
    rewrite Hrow. unfold tax_revenue_row.
    replace (Z.to_nat (Z.of_nat k + 1)) with (S k) by lia.
    replace (Z.to_nat (Z.of_nat k + 1 - 1)) with k by lia.
    rewrite lookup_tail.
    destruct (lookup_lt_is_Some_2 simulation_results (S k)) as [cur ->]; [lia|].
    destruct (lookup_lt_is_Some_2 simulation_results k) as [prev ->]; [lia|].
    done.
  - rewrite (lookup_ge_None_2 rows) by lia.
    rewrite lookup_tail, (lookup_ge_None_2 simulation_results) by lia. done.
Qed.

End Revenue_extras.

(** X5: on a trajectory of the engine the revenue loop does not raise and
    returns one entry per simulated year, labelled 1, ..., [years], and
    none when no year was simulated. *)
Theorem tax_revenue_shape {num : Type} `{Number num}
    (wealth_groups : gmap string (WealthGroup num)) (years : Z)
    (tax_rate threshold growth_rate high_wealth_premium redistribution_eff : num)
    (avg_growth_rate high_wealth_growth_premium : num)
    (traj : list (YearSnapshot num)) :
  simulate_wealth_tax_impact wealth_groups years tax_rate threshold growth_rate
    high_wealth_premium redistribution_eff = Some traj →
  ∃ rows,
    tax_revenue traj avg_growth_rate high_wealth_growth_premium = Some rows
    ∧ length rows = Z.to_nat years
    ∧ tr_year <$> rows = range 1 (years + 1).
Proof.
  intros Hsim.
  destruct (tax_revenue_rows traj avg_growth_rate high_wealth_growth_premium)
    as (rows & Hrows & Hlen & Hyears).
  destruct (simulate_Some_initial _ _ _ _ _ _ _ _ Hsim) as [s0 Hs0].
  rewrite (simulate_unfold _ _ _ _ _ _ _ _ Hs0) in Hsim. injection Hsim as <-.
  exists rows. split; [exact Hrows|]. split.
  - rewrite Hlen. simpl. rewrite length_appended, length_range. lia.
  - rewrite Hyears. simpl. apply year_appended.
Qed.

Lemma tax_revenue_shape_witness :
  simulate_wealth_tax_impact initialize_wealth_groups Defaults.years_to_simulate
    Defaults.tax_rate Defaults.wealth_threshold Defaults.avg_growth_rate
    Defaults.high_wealth_growth_premium Defaults.redistribution_efficiency
    = Some default_rows
  ∧ ∃ rows,
      tax_revenue default_rows Defaults.avg_growth_rate Defaults.high_wealth_growth_premium
        = Some rows
      ∧ length rows = Z.to_nat Defaults.years_to_simulate
      ∧ tr_year <$> rows = range 1 (Defaults.years_to_simulate + 1).
Proof.
  assert (Hsim : simulate_wealth_tax_impact initialize_wealth_groups
                   Defaults.years_to_simulate Defaults.tax_rate Defaults.wealth_threshold
                   Defaults.avg_growth_rate Defaults.high_wealth_growth_premium
                   Defaults.redistribution_efficiency = Some default_rows)
    by (vm_compute; reflexivity).
  split; [exact Hsim|].
  exact (tax_revenue_shape initialize_wealth_groups Defaults.years_to_simulate
           Defaults.tax_rate Defaults.wealth_threshold Defaults.avg_growth_rate
           Defaults.high_wealth_growth_premium Defaults.redistribution_efficiency
           Defaults.avg_growth_rate Defaults.high_wealth_growth_premium
           default_rows Hsim).
Defined.

(** ** The share table after its first row *)

Section Nan_facts.
Import Frame.

Lemma is_nan_add_l (a b : float) :
  PrimFloat.is_nan a = true → PrimFloat.is_nan (a + b)%float = true.
Proof. rewrite !is_nan_spec, add_spec. by intros ->. Qed.

Lemma is_nan_add_r (a b : float) :
  PrimFloat.is_nan b = true → PrimFloat.is_nan (a + b)%float = true.
Proof. rewrite !is_nan_spec, add_spec. intros ->. by destruct (Prim2SF a). Qed.

Lemma is_nan_div_r (a b : float) :
  PrimFloat.is_nan b = true → PrimFloat.is_nan (a / b)%float = true.
Proof. rewrite !is_nan_spec, div_spec. intros ->. by destruct (Prim2SF a). Qed.

Lemma fold_add_nan (xs : list scalar) (acc : float) :
  PrimFloat.is_nan acc = true →
  PrimFloat.is_nan (fold_left (λ a x, add a (to_float x)) xs acc) = true.
Proof.
  revert acc. induction xs as [|x xs IH]; intros acc Hacc; [done|].
  simpl. apply IH. by apply is_nan_add_l.
Qed.

Lemma sum_nan (xs : list scalar) (x : scalar) :
  x ∈ xs → PrimFloat.is_nan (to_float x) = true → PrimFloat.is_nan (sum xs) = true.
Proof.
  unfold sum. generalize (of_int (num:=float) 0).
  induction xs as [|y xs IH]; intros acc Hin Hx; [by apply elem_of_nil in Hin|].
  simpl. apply elem_of_cons in Hin as [<-|Hin].
  - apply fold_add_nan. by apply is_nan_add_r.
  - by apply IH.
Qed.

Lemma lookup_map {A B} (f : A → B) (xs : list A) (i : nat) :
  map f xs !! i = f <$> xs !! i.
Proof. revert i. induction xs as [|x xs IH]; intros [|i]; simpl; done. Qed.

Lemma assign_lookup (mask : list bool) (v : scalar) (vs : list scalar) (i : nat) (x : scalar) :
  vs !! i = Some x →
  assign mask v vs !! i = Some v ∨ assign mask v vs !! i = Some x.
Proof.
  revert vs i. induction mask as [|b mask IH]; intros [|y vs] i Hx; try done; [by right|].
  destruct i as [|i]; simpl in *.
  - destruct b; [by left|by right].
  - by apply IH.
Qed.

Lemma head_select_lookup (mask : list bool) (vs : list scalar) (x : scalar) :
  head (select mask vs) = Some x → ∃ j, mask !! j = Some true ∧ vs !! j = Some x.
Proof.
  revert vs. induction mask as [|b mask IH]; intros [|y vs] Hx; try done.
  simpl in Hx. destruct b.
  - exists 0%nat. simpl in *. by injection Hx as ->.
  - destruct (IH vs Hx) as (j & Hm & Hv). by exists (S j).
Qed.

Lemma column_is_Some_elem_of (df : DataFrame) (c : string) :
  is_Some (column df c) → c ∈ columns df.
Proof.
  induction df as [|[c0 vs] df IH]; simpl; intros Hc; [by destruct Hc|].
  destruct (decide (c0 = c)) as [->|Hne]; [by left|]. right. by apply IH.
Qed.

Lemma loc_assign_lost (n : nat) (df : DataFrame) (mask : list bool) (name : string)
    (w : float) :
  PrimFloat.is_nan w = true →
  shares_lost n df → shares_lost n (loc_assign df mask name (Float w)).
Proof.
  intros Hw Hlost g i Hg Hi. destruct (Hlost g i Hg Hi) as (f & Hcell & Hf).
  unfold is_nan_cell, cell in *. rewrite column_loc_assign.
  destruct (decide (g +:+ " Share" = name)) as [<-|Hne]; [|by exists f].
  destruct (column df (g +:+ " Share")) as [vs|]; [|done]. simpl in *.
  destruct (assign_lookup mask (Float w) vs i _ Hcell) as [->| ->]; by eexists.
Qed.

Lemma share_of_column_lost (n : nat) (yr : scalar) (total : float) (df df' : DataFrame)
    (c : string) :
  PrimFloat.is_nan total = true →
  share_of_column yr total df c = Some df' →
  shares_lost n df → shares_lost n df'.
Proof.
  intros Htotal. unfold share_of_column.
  destruct (decide (c ≠ "year")); [|by intros [= <-]].
  destruct (eq_mask df "year" yr) as [mask|]; [|done]. simpl.
  destruct (loc_value0 df mask c) as [v|]; [|done]. simpl.
  intros [= <-]. apply loc_assign_lost. by apply is_nan_div_r.
Qed.

Lemma columns_loop_lost (n : nat) (yr : scalar) (total : float) (cs : list string)
    (df df' : DataFrame) :
  PrimFloat.is_nan total = true →
  for_each cs (share_of_column yr total) df = Some df' →
  shares_lost n df → shares_lost n df'.
Proof.
  intros Htotal. revert df. induction cs as [|c cs IH]; intros df.
  - by intros [= <-].
  - rewrite for_each_cons.
    destruct (share_of_column yr total df c) as [df1|] eqn:Hc; [|done]. simpl.
    intros Hloop Hlost. apply (IH df1 Hloop).
    by eapply share_of_column_lost.
Qed.

Lemma shares_of_year_lost (Y : list scalar) (yr : scalar) (df df' : DataFrame) :
  (∃ y0 Y', Y = y0 :: Y' ∧ scalar_eqb y0 yr = false) →
  well_formed Y df →
  shares_of_year df yr = Some df' →
  shares_lost (length Y) df → shares_lost (length Y) df'.
Proof.
  intros (y0 & Y' & HY & Hy0) Hwf. unfold shares_of_year.
  rewrite (eq_mask_year Y yr df Hwf). simpl.
  destruct (mapM _ _) as [terms|] eqn:Hterms; [|done]. simpl.
  intros Hloop Hlost.
  destruct (decide (length Y ≤ 1)%nat) as [Hshort|Hlong].
  { intros g i _ Hi. lia. }
  eapply columns_loop_lost; [|exact Hloop|exact Hlost].
  (* the total of the pass holds a missing share *)
  destruct (Hlost ULTRA 1%nat ltac:(by left) ltac:(lia))
    as (f1 & Hcell1 & _).
  unfold cell in Hcell1.
  destruct (column df (ULTRA +:+ " Share")) as [vs|] eqn:Hvs; [|done].
  assert (Hin : ULTRA +:+ " Share" ∈ filter (λ col, col ≠ "year") (columns df)).
  { apply list_elem_of_filter. split; [apply share_name_not_year|].
    apply column_is_Some_elem_of. by rewrite Hvs. }
  apply mapM_Some in Hterms.
  apply list_elem_of_lookup in Hin as [k Hk].
  destruct (Forall2_lookup_l _ _ _ _ _ Hterms Hk) as (term & Hterm & Hval).
  unfold loc_value0 in Hval. rewrite Hvs in Hval. simpl in Hval.
  apply head_select_lookup in Hval as (j & Hmask & Hj).
  assert (Hj1 : (1 ≤ j < length Y)%nat).
  { split.
    - destruct j; [|lia]. rewrite HY in Hmask. simpl in Hmask. congruence.
    - apply lookup_lt_Some in Hmask. by rewrite length_map in Hmask. }
  assert (Hultra : ULTRA ∈ groups) by (by left).
  destruct (Hlost ULTRA j Hultra Hj1) as (f & Hcell & Hf).
  unfold cell in Hcell. rewrite Hvs in Hcell. simpl in Hcell.
  rewrite Hj in Hcell. injection Hcell as ->.
  apply (sum_nan terms (Float f)); [|exact Hf].
  by eapply list_elem_of_lookup_2.
Qed.

Lemma years_loop_lost (Y ys : list scalar) (df df' : DataFrame) :
  (∀ yr, yr ∈ ys →
     (∃ y, y ∈ Y ∧ scalar_eqb y yr = true)
     ∧ (∃ y0 Y', Y = y0 :: Y' ∧ scalar_eqb y0 yr = false)) →
  well_formed Y df →
  for_each ys shares_of_year df = Some df' →
  shares_lost (length Y) df → shares_lost (length Y) df'.
Proof.
  revert df. induction ys as [|yr ys IH]; intros df Hys Hwf.
  - by intros [= <-].
  - rewrite for_each_cons.
    destruct (Hys yr ltac:(by left)) as [Hpresent Hother].
    destruct (shares_of_year_other Y yr df Hpresent Hother Hwf) as (df1 & Hpass & Hwf1 & _).
    rewrite Hpass. simpl. intros Hloop Hlost.
    apply (IH df1); [|exact Hwf1|exact Hloop|].
    + intros yr' Hyr'. apply Hys. by right.
    + exact (shares_of_year_lost Y yr df df1 Hother Hwf Hpass Hlost).
Qed.

End Nan_facts.

Section Year_0_lost.
Import Frame.
Variables (u m l : float) (rest : list (YearSnapshot float)).
Hypothesis later_years : ∀ r, r ∈ rest → year r ≠ 0.

Local Abbreviation s0 :=
  {| year := 0; ultra_wealthy := u; middle_wealth := m; lower_wealth := l |}.
Local Abbreviation Y := ((λ r, Int (year r)) <$> s0 :: rest).
Local Abbreviation total := (sum [Float u; Float m; Float l]).

Lemma mask_of_later_years (i : nat) :
  (i < length rest)%nat →
  map (λ x, scalar_eqb x (Int 0)) ((λ r, Int (year r)) <$> rest) !! i = Some false.
Proof.
  intros Hi. destruct (lookup_lt_is_Some_2 rest i Hi) as [r Hr].
  rewrite lookup_map, list_lookup_fmap, Hr. simpl. f_equal.
  apply Z.eqb_neq. apply later_years. by eapply list_elem_of_lookup_2.
Qed.

Lemma shares_of_year_0_lost :
  ∃ df1, shares_of_year (of_results (s0 :: rest)) (Int 0) = Some df1
       ∧ well_formed Y df1 ∧ shares_lost (length Y) df1.
Proof.
  set (mask' := map (λ x, scalar_eqb x (Int 0)) ((λ r, Int (year r)) <$> rest)).
  set (fill := λ v : scalar, v :: ((λ b : bool, if b then v else Float nan) <$> mask')).
  exists (of_results (s0 :: rest)
          ++ [ (ULTRA +:+ " Share", fill (Float (u / total)));
               (MIDDLE +:+ " Share", fill (Float (m / total)));
               (LOWER +:+ " Share", fill (Float (l / total))) ]).
  split; [reflexivity|]. split.
  - split; [done|]. intros c vs. unfold of_results, fill, mask'. simpl.
    repeat (case_decide;
            [intros [= <-]; simpl; by rewrite ?length_list_fmap, ?length_map, ?length_list_fmap|]).
    done.
  - intros g i Hg Hi. rewrite length_fmap in Hi. simpl in Hi.
    destruct i as [|i]; [lia|].
    assert (Hfill : ∀ v, fill v !! S i = Some (Float nan)).
    { intros v. unfold fill. simpl. rewrite list_lookup_fmap.
      unfold mask'. rewrite mask_of_later_years by lia. done. }
    exists nan. split; [|done].
    unfold groups in Hg.
    repeat (apply elem_of_cons in Hg as [->|Hg]); [| | |by apply elem_of_nil in Hg].
    + exact (Hfill (Float (u / total))).
    + exact (Hfill (Float (m / total))).
    + exact (Hfill (Float (l / total))).
Qed.

End Year_0_lost.

(** X13: for every run of the engine, whatever the groups, the parameters
    and the horizon, the share table is computed without raising and
    holds [nan] as the share of every group in every row of a year
    [1 <= t <= years]: from the second pass on the total of a pass
    includes the share columns of the passes before, which are missing
    in the row. *)
Theorem share_table_lost_after_year_0
    (wealth_groups : gmap string (WealthGroup float)) (years : Z)
    (tax_rate threshold growth_rate high_wealth_premium redistribution_eff : float)
    (results : list (YearSnapshot float)) :
  simulate_wealth_tax_impact wealth_groups years tax_rate threshold growth_rate
    high_wealth_premium redistribution_eff = Some results →
  ∃ shares,
    Frame.wealth_shares (Frame.of_results results) = Some shares
    ∧ ∀ name (t : Z), name ∈ groups → 1 ≤ t ≤ years →
        ∃ f, Frame.cell shares (name +:+ " Share") (Z.to_nat t) = Some (Frame.Float f)
           ∧ PrimFloat.is_nan f = true.
Proof.
  intros Hsim.
  destruct (simulate_Some_initial _ _ _ _ _ _ _ _ Hsim) as [s0 Hs0].
  rewrite (simulate_unfold _ _ _ _ _ _ _ _ Hs0) in Hsim. injection Hsim as <-.
  destruct (initial_state_Some _ _ Hs0) as (u & m & l & _ & _ & _ & ->).
  set (s0 := {| year := 0; ultra_wealthy := total_wealth u;
                middle_wealth := total_wealth m; lower_wealth := total_wealth l |}).
  set (rest := appended tax_rate growth_rate high_wealth_premium redistribution_eff s0
                 (range 1 (years + 1))).
  assert (Hlater : ∀ r, r ∈ rest → 1 ≤ year r < years + 1).
  { intros r Hr. apply elem_of_range.
    rewrite <- (year_appended tax_rate growth_rate high_wealth_premium redistribution_eff
                  (range 1 (years + 1)) s0).
    by apply list_elem_of_fmap_2. }
  destruct (shares_of_year_0_lost (total_wealth u) (total_wealth m) (total_wealth l) rest)
    as (df1 & Hpass & Hwf1 & Hlost1).
  { intros r Hr. apply Hlater in Hr. lia. }
  assert (Hys : ∀ yr, yr ∈ (λ r, Frame.Int (year r)) <$> rest →
            (∃ y, y ∈ (λ r, Frame.Int (year r)) <$> s0 :: rest
                  ∧ Frame.scalar_eqb y yr = true)
            ∧ (∃ y0 Y', (λ r, Frame.Int (year r)) <$> s0 :: rest = y0 :: Y'
                        ∧ Frame.scalar_eqb y0 yr = false)).
  { intros yr Hyr. apply list_elem_of_fmap in Hyr as (r & -> & Hr).
    pose proof (Hlater r Hr) as Hy. split.
    - exists (Frame.Int (year r)). split.
      + rewrite fmap_cons. right. by apply (list_elem_of_fmap_2 (λ r, Frame.Int (year r))).
      + apply Z.eqb_refl.
    - eexists _, _. split; [apply fmap_cons|].
      change ((0 =? year r) = false). apply Z.eqb_neq. lia. }
  destruct (years_loop_other _ _ df1 Hys Hwf1) as (shares & Hloop & _ & _).
  exists shares. split.
  - unfold Frame.wealth_shares.
    change (Frame.column (Frame.of_results (s0 :: rest)) "year")
      with (Some ((λ r, Frame.Int (year r)) <$> s0 :: rest)).
    rewrite fmap_cons. cbn [mbind option_bind]. rewrite for_each_cons.
    change (Frame.Int (year s0)) with (Frame.Int 0). fold s0 in Hpass. rewrite Hpass.
    exact Hloop.
  - intros name t Hname Ht.
    apply (years_loop_lost _ _ df1 shares Hys Hwf1 Hloop Hlost1 name (Z.to_nat t) Hname).
    rewrite length_fmap. simpl. unfold rest. rewrite length_appended, length_range. lia.
Qed.

Lemma share_table_lost_after_year_0_witness :
  simulate_wealth_tax_impact initialize_wealth_groups Defaults.years_to_simulate
    Defaults.tax_rate Defaults.wealth_threshold Defaults.avg_growth_rate
    Defaults.high_wealth_growth_premium Defaults.redistribution_efficiency
    = Some default_rows
  ∧ ∃ shares,
      Frame.wealth_shares (Frame.of_results default_rows) = Some shares
      ∧ ∀ name (t : Z), name ∈ groups → 1 ≤ t ≤ Defaults.years_to_simulate →
          ∃ f, Frame.cell shares (name +:+ " Share") (Z.to_nat t) = Some (Frame.Float f)
             ∧ PrimFloat.is_nan f = true.
Proof.
  assert (Hsim : simulate_wealth_tax_impact initialize_wealth_groups
                   Defaults.years_to_simulate Defaults.tax_rate Defaults.wealth_threshold
                   Defaults.avg_growth_rate Defaults.high_wealth_growth_premium
                   Defaults.redistribution_efficiency = Some default_rows)
    by (vm_compute; reflexivity).
  split; [exact Hsim|].
  exact (share_table_lost_after_year_0 initialize_wealth_groups Defaults.years_to_simulate
           Defaults.tax_rate Defaults.wealth_threshold Defaults.avg_growth_rate
           Defaults.high_wealth_growth_premium Defaults.redistribution_efficiency
           default_rows Hsim).
Defined.

(** ** The revenue calculator *)

Section Calculator_facts.
Import Calculator.
Local Open Scope Q_scope.

Lemma revenue_billions_monotone (r1 r2 : Z) :
  (r1 ≤ r2)%Z → revenue_billions r1 <= revenue_billions r2.
Proof.
  intros Hle. unfold revenue_billions. apply Qmult_le_l; [reflexivity|].
  by rewrite <- Zle_Qle.
Qed.

Lemma covered_monotone (expenditure_df : list (string * Z)) (rev1 rev2 : Q) :
  rev1 <= rev2 → covered expenditure_df rev1 `sublist_of` covered expenditure_df rev2.
Proof.
  intros Hle. unfold covered.
  induction expenditure_df as [|[dept amount] df IH]; simpl; [constructor|].
  destruct (Qle_bool (inject_Z amount) rev1) eqn:H1.
  - assert (H2 : Qle_bool (inject_Z amount) rev2 = true).
    { apply Qle_bool_iff. apply Qle_bool_iff in H1. by eapply Qle_trans. }
    rewrite H2. simpl. by constructor.
  - destruct (Qle_bool (inject_Z amount) rev2); simpl; [by constructor|done].
Qed.

End Calculator_facts.

(** X14: in the calculator a higher tax rate never uncovers a department:
    the departments covered at a rate are, in the order of the table,
    among those covered at any higher rate, which are among the
    categories of the table. *)
Theorem coverage_grows_with_the_rate (categories : list string) (amounts : list Z)
    (expenditure_df : list (string * Z)) (tax_rate1 tax_rate2 : Z) :
  Calculator.DataFrame categories amounts = Some expenditure_df →
  tax_rate1 ≤ tax_rate2 →
  Calculator.covered expenditure_df (Calculator.revenue_billions tax_rate1)
    `sublist_of` Calculator.covered expenditure_df (Calculator.revenue_billions tax_rate2)
  ∧ Calculator.covered expenditure_df (Calculator.revenue_billions tax_rate2)
    `sublist_of` categories.
Proof.
  intros Hdf Hle. split.
  - apply covered_monotone. by apply revenue_billions_monotone.
  - unfold Calculator.DataFrame in Hdf. case_decide as Hlen; [|done]. injection Hdf as <-.
    unfold Calculator.covered.
    generalize (Calculator.revenue_billions tax_rate2). intros rev.
    revert amounts Hlen. induction categories as [|c cs IH]; intros [|a as'] Hlen; try done.
    simpl. destruct (Qle_bool (inject_Z a) rev); simpl.
    + constructor. apply IH. simpl in Hlen. lia.
    + constructor. apply IH. simpl in Hlen. lia.
Qed.

Lemma coverage_grows_with_the_rate_witness :
  Calculator.DataFrame Calculator.categories Calculator.amounts
    = Some (zip Calculator.categories Calculator.amounts)
  ∧ 1 ≤ 5
  ∧ Calculator.covered (zip Calculator.categories Calculator.amounts)
      (Calculator.revenue_billions 1)
    `sublist_of` Calculator.covered (zip Calculator.categories Calculator.amounts)
                   (Calculator.revenue_billions 5)
  ∧ Calculator.covered (zip Calculator.categories Calculator.amounts)
      (Calculator.revenue_billions 5)
    `sublist_of` Calculator.categories.
Proof.
  assert (Hdf : Calculator.DataFrame Calculator.categories Calculator.amounts
                = Some (zip Calculator.categories Calculator.amounts)) by reflexivity.
  assert (Hle : 1 ≤ 5) by lia.
  split; [exact Hdf|]. split; [exact Hle|].
  exact (coverage_grows_with_the_rate Calculator.categories Calculator.amounts
           (zip Calculator.categories Calculator.amounts) 1 5 Hdf Hle).
Defined.
